(** * VideoEditor.svelte: subtitle parsing, caption sync and overlay dragging

    A shallow embedding of the script block of
    [src/frontend/src/components/VideoEditor.svelte]:

    - [srtTimeToSeconds] and [parseSrt]   (the subtitle parser),
    - [handleTimeUpdate]                  (active-caption selection),
    - [handleSubtitleMouseDown], [handleMouseMove], [handleMouseUp]
                                          (the pointer-driven overlay).

    JavaScript numbers are IEEE-754 binary64 values; they are modelled by
    Rocq's primitive floats, so every arithmetic step of the source rounds
    exactly as it does in a JavaScript engine.  Strings are sequences of
    code units restricted to U+0000..U+00FF (one [ascii] per code unit). *)

From Stdlib Require Import ZArith List Bool Ascii String Sorted Lia.
From Stdlib Require Import Floats.
From Stdlib Require Uint63.
Import ListNotations.

(* ================================================================== *)
(** * The fragment of the JavaScript runtime the component relies on  *)
(* ================================================================== *)

Module JS.

Local Open Scope float_scope.

(** ** Numbers *)

Definition number := float.

(** The Number value for a mathematical integer: round to nearest, ties to
    even, overflowing to an infinity. *)
Definition of_Z (z : Z) : number :=
  SF2Prim (binary_normalize prec emax z 0 false).

(** [ToNumber] of a property that may be absent: reading an absent property
    gives [undefined], and [ToNumber(undefined)] is [NaN]. *)
Definition to_number (v : option number) : number :=
  match v with
  | Some x => x
  | None => nan
  end.

(** [a >= b] and [a <= b] on numbers: false as soon as one side is NaN. *)
Definition ge (a b : number) : bool := b <=? a.
Definition le (a b : number) : bool := a <=? b.

(** [ToBoolean] on a number: [0], [-0] and [NaN] are falsy. *)
Definition truthy (x : number) : bool := negb (is_nan x || is_zero x).

(** [Math.min] and [Math.max] on two arguments: NaN is contagious, and [-0]
    is smaller than [+0]. *)
Definition Math_min (a b : number) : number :=
  if is_nan a || is_nan b then nan
  else if a <? b then a
  else if b <? a then b
  else if get_sign a then a else b.

Definition Math_max (a b : number) : number :=
  if is_nan a || is_nan b then nan
  else if a <? b then b
  else if b <? a then a
  else if get_sign a then b else a.

(** ** Abrupt completions *)

Inductive error : Set := TypeError.

Inductive completion (A : Type) : Type :=
| Normal (a : A)
| Throw (e : error).

Arguments Normal {A} a.
Arguments Throw {A} e.

Definition bind {A B : Type} (c : completion A) (k : A -> completion B)
  : completion B :=
  match c with
  | Normal a => k a
  | Throw e => Throw e
  end.

Definition throws {A : Type} (c : completion A) : bool :=
  match c with
  | Normal _ => false
  | Throw _ => true
  end.

(** ** Strings *)

Local Open Scope string_scope.

Definition LF : ascii := ascii_of_nat 10.
Definition CR : ascii := ascii_of_nat 13.

(** White space and line terminators below U+0100: TAB, LF, VT, FF, CR,
    SPACE and NO-BREAK SPACE. *)
Definition is_white_space (c : ascii) : bool :=
  let n := nat_of_ascii c in
  ((9 <=? n) && (n <=? 13) || (n =? 32) || (n =? 160))%nat.

Definition is_digit (c : ascii) : bool :=
  let n := nat_of_ascii c in ((48 <=? n) && (n <=? 57))%nat.

Definition digit_value (c : ascii) : Z := Z.of_nat (nat_of_ascii c) - 48.

(** [String.prototype.trimStart], [trimEnd] and [trim]. *)
Fixpoint trimStart (s : string) : string :=
  match s with
  | String c r => if is_white_space c then trimStart r else s
  | EmptyString => EmptyString
  end.

Fixpoint trimEnd (s : string) : string :=
  match s with
  | EmptyString => EmptyString
  | String c r =>
      match trimEnd r with
      | EmptyString => if is_white_space c then EmptyString else String c EmptyString
      | r' => String c r'
      end
  end.

Definition trim (s : string) : string := trimEnd (trimStart s).

(** Does [p] occur in [s] at position 0? *)
Fixpoint starts_with (p s : string) : bool :=
  match p, s with
  | EmptyString, _ => true
  | String _ _, EmptyString => false
  | String a p', String b s' => Ascii.eqb a b && starts_with p' s'
  end.

(** [String.prototype.includes]. *)
Fixpoint includes (p s : string) : bool :=
  starts_with p s ||
  match s with
  | EmptyString => false
  | String _ r => includes p r
  end.

(** Put one more code unit in front of the piece being read. *)
Definition cons_head (c : ascii) (pieces : list string) : list string :=
  match pieces with
  | h :: t => String c h :: t
  | [] => [String c EmptyString]
  end.

(** [String.prototype.split] with a non-empty string separator: scan from
    the left, cut at each occurrence of [sep] and resume after it.  [skip]
    counts the code units of a matched separator still to be passed over. *)
Fixpoint split_from (sep : string) (skip : nat) (s : string) : list string :=
  match s with
  | EmptyString => [EmptyString]
  | String c r =>
      match skip with
      | S k => split_from sep k r
      | O =>
          if starts_with sep s
          then EmptyString :: split_from sep (String.length sep - 1) r
          else cons_head c (split_from sep 0 r)
      end
  end.

Definition split (sep : string) (s : string) : list string :=
  split_from sep 0 s.

(** [s.split(/\r?\n/)]: at each position the pattern matches CR LF or a
    lone LF; a CR that is not followed by LF stays in its line. *)
Fixpoint split_lines (s : string) : list string :=
  match s with
  | EmptyString => [EmptyString]
  | String c r =>
      if Ascii.eqb c LF then EmptyString :: split_lines r
      else if Ascii.eqb c CR then
        match r with
        | String c' r' =>
            if Ascii.eqb c' LF then EmptyString :: split_lines r'
            else cons_head c (split_lines r)
        | EmptyString => cons_head c (split_lines r)
        end
      else cons_head c (split_lines r)
  end.

(** ** [parseInt(string, 10)] *)

Fixpoint digits_prefix (s : string) : string :=
  match s with
  | String c r => if is_digit c then String c (digits_prefix r) else EmptyString
  | EmptyString => EmptyString
  end.

Fixpoint digits_value (acc : Z) (s : string) : Z :=
  match s with
  | String c r => digits_value (10 * acc + digit_value c) r
  | EmptyString => acc
  end.

(** [parseInt(input, 10)], where [None] stands for an [undefined] argument
    ([ToString] turns it into the text "undefined").  Leading white space is
    skipped, one sign is accepted, the longest prefix of decimal digits is
    read, and an empty prefix gives NaN.  The integer read is converted
    exactly (correctly rounded), as engines do for radix 10. *)
Definition parseInt (input : option string) : number :=
  let inputString := match input with Some s => s | None => "undefined" end in
  let trimmed := trimStart inputString in
  let '(negative, rest) :=
    match trimmed with
    | String "-" r => (true, r)
    | String "+" r => (false, r)
    | _ => (false, trimmed)
    end in
  match digits_prefix rest with
  | EmptyString => nan
  | digits =>
      let mathInt := digits_value 0 digits in
      if (mathInt =? 0)%Z then (if negative then (-0)%float else 0%float)
      else of_Z (if negative then - mathInt else mathInt)
  end.

End JS.

Import JS.

Notation "x <- c ;; k" := (JS.bind c (fun x => k))
  (at level 61, c at next level, right associativity).

Local Open Scope string_scope.

(* ================================================================== *)
(** * The subtitle parser                                              *)
(* ================================================================== *)

(** A caption object.  [start] and [end_] are [None] while the property
    has never been assigned (the parser creates captions without them). *)
Record Caption : Type := mkCaption {
  id : Z;
  text : string;
  active : bool;
  start : option number;
  end_ : option number
}.

(** [srtTimeToSeconds(srtTime)].  The array patterns take the first three
    pieces between colons and the first two pieces between commas; a missing
    piece is [undefined].  Calling [split] on an undefined [secondsAndMillis]
    throws a TypeError. *)
Definition srtTimeToSeconds (srtTime : string) : completion number :=
  let parts := split ":" srtTime in
  let hours := nth_error parts 0 in
  let minutes := nth_error parts 1 in
  match nth_error parts 2 with
  | None => Throw TypeError
  | Some secondsAndMillis =>
      let parts' := split "," secondsAndMillis in
      let seconds := nth_error parts' 0 in
      let millis := nth_error parts' 1 in
      Normal (parseInt hours * 3600 +
              parseInt minutes * 60 +
              parseInt seconds +
              parseInt millis / 1000)%float
  end.

(** The three variables of the loop of [parseSrt]. *)
Record ParseState : Type := mkParseState {
  parsedCaptions : list Caption;
  currentCaption : option Caption;
  idCounter : Z
}.

(** [if (currentCaption && currentCaption.text.trim() !== '')
      parsedCaptions.push(currentCaption)]. *)
Definition push_current (st : ParseState) : list Caption :=
  match currentCaption st with
  | Some c =>
      if negb (trim (text c) =? "") then parsedCaptions st ++ [c]
      else parsedCaptions st
  | None => parsedCaptions st
  end.

(** The time range line: [line.split('-->').map(s => s.trim())], of which
    the array pattern takes the first two pieces.  [start] is assigned
    before the end time is converted; either conversion may throw. *)
Definition assign_range (c : Caption) (line : string) : completion Caption :=
  let parts := map trim (split "-->" line) in
  match nth_error parts 0, nth_error parts 1 with
  | Some startTime, Some endTime =>
      s <- srtTimeToSeconds startTime ;;
      e <- srtTimeToSeconds endTime ;;
      Normal (mkCaption (id c) (text c) (active c) (Some s) (Some e))
  | _, _ => Throw TypeError
  end.

(** [currentCaption.text += (currentCaption.text === '' ? '' : '\n')
      + line.trim()]. *)
Definition append_text (c : Caption) (line : string) : Caption :=
  mkCaption (id c)
    (text c ++ (if text c =? "" then "" else String LF "") ++ trim line)
    (active c) (start c) (end_ c).

(** One turn of the [for (const line of lines)] loop. *)
Definition parseSrt_line (st : ParseState) (line : string)
  : completion ParseState :=
  if trim line =? "" then
    Normal (mkParseState (push_current st) None (idCounter st))
  else
    match currentCaption st with
    | None =>
        Normal (mkParseState (parsedCaptions st)
                  (Some (mkCaption (idCounter st) "" false None None))
                  (idCounter st + 1))
    | Some c =>
        if includes "-->" line then
          c' <- assign_range c line ;;
          Normal (mkParseState (parsedCaptions st) (Some c') (idCounter st))
        else
          Normal (mkParseState (parsedCaptions st)
                    (Some (append_text c line)) (idCounter st))
    end.

Fixpoint parseSrt_loop (st : ParseState) (lines : list string)
  : completion ParseState :=
  match lines with
  | [] => Normal st
  | line :: rest => st' <- parseSrt_line st line ;; parseSrt_loop st' rest
  end.

Definition parseSrt_init : ParseState := mkParseState [] None 1.

(** [parseSrt(srtContent)]. *)
Definition parseSrt (srtContent : string) : completion (list Caption) :=
  st <- parseSrt_loop parseSrt_init (split_lines srtContent) ;;
  Normal (push_current st).

(* ================================================================== *)
(** * Component state and the playback clock                           *)
(* ================================================================== *)

Record Point : Type := mkPoint { x : number; y : number }.
Record Size : Type := mkSize { width : number; height : number }.

Arguments mkPoint (x y)%_float.
Arguments mkSize (width height)%_float.

(** What the handlers read from [container.getBoundingClientRect()]. *)
Record DOMRect : Type := mkRect { rect_width : number; rect_height : number }.

Arguments mkRect (rect_width rect_height)%_float.

(** What the handlers read from the bound [<video>] element; its
    [parentElement] is represented by the rectangle it reports. *)
Record Video : Type := mkVideo {
  video_currentTime : number;
  video_duration : number;
  video_parentElement : option DOMRect
}.

Arguments mkVideo (video_currentTime video_duration)%_float video_parentElement.

(** The [let] variables of the component that the handlers touch. *)
Record Component : Type := mkComponent {
  currentTime : number;
  duration : number;
  subtitlePosition : Point;
  subtitleText : string;
  isDragging : bool;
  dragStart : Point;
  subtitleSize : Size;
  isResizing : bool;
  captions : list Caption
}.

Definition initial : Component :=
  mkComponent 0%float 0%float (mkPoint 50%float 15%float)
    "Your subtitle text here" false
    (mkPoint 0%float 0%float) (mkSize 300%float 60%float) false [].

(** [c => ({ ...c, active: currentTime >= c.start && currentTime <= c.end })] *)
Definition mark_active (t : number) (c : Caption) : Caption :=
  mkCaption (id c) (text c)
    (JS.ge t (to_number (start c)) && JS.le t (to_number (end_ c)))
    (start c) (end_ c).

(** [handleTimeUpdate()]; [videoElement] is [None] until the element is
    bound. *)
Definition handleTimeUpdate (videoElement : option Video) (s : Component)
  : Component :=
  match videoElement with
  | None => s
  | Some v =>
      let currentTime' := video_currentTime v in
      let duration' :=
        if truthy (video_duration v) then video_duration v else 0%float in
      let captions' := map (mark_active currentTime') (captions s) in
      let activeCaption := find active captions' in
      let subtitleText' :=
        match activeCaption with
        | Some c => text c
        | None => ""
        end in
      mkComponent currentTime' duration' (subtitlePosition s) subtitleText'
        (isDragging s) (dragStart s) (subtitleSize s) (isResizing s) captions'
  end.

(* ================================================================== *)
(** * The overlay: pointer handlers                                    *)
(* ================================================================== *)

(** What the handlers read from a mouse event: the pointer position and,
    for [mousedown], whether the target carries the class [resize-handle]
    and the offset size of the target's parent element. *)
Record MouseEvent : Type := mkMouseEvent {
  clientX : number;
  clientY : number;
  target_is_resize_handle : bool;
  target_parent_offsetWidth : number;
  target_parent_offsetHeight : number
}.

Arguments mkMouseEvent (clientX clientY)%_float target_is_resize_handle
  (target_parent_offsetWidth target_parent_offsetHeight)%_float.

Local Open Scope float_scope.

(** [handleSubtitleMouseDown(e)] *)
Definition handleSubtitleMouseDown (e : MouseEvent) (s : Component)
  : Component :=
  let isResizing' :=
    if target_is_resize_handle e then true else isResizing s in
  let isDragging' :=
    if target_is_resize_handle e then isDragging s else true in
  let dragStart' :=
    mkPoint
      (clientX e - (x (subtitlePosition s) / 100 * target_parent_offsetWidth e))
      (clientY e -
         ((100 - y (subtitlePosition s)) / 100 * target_parent_offsetHeight e)) in
  mkComponent (currentTime s) (duration s) (subtitlePosition s)
    (subtitleText s) isDragging' dragStart' (subtitleSize s) isResizing'
    (captions s).

(** [Math.max(10, Math.min(90, v))] *)
Definition clamp (v : number) : number := Math_max 10 (Math_min 90 v).

(** The two percentages computed by [handleMouseMove] before clamping. *)
Definition percent_x (e : MouseEvent) (s : Component) (rect : DOMRect)
  : number :=
  ((clientX e - x (dragStart s)) / rect_width rect) * 100.

Definition percent_y (e : MouseEvent) (s : Component) (rect : DOMRect)
  : number :=
  100 - ((clientY e - y (dragStart s)) / rect_height rect) * 100.

(** [handleMouseMove(e)] *)
Definition handleMouseMove (videoElement : option Video) (e : MouseEvent)
  (s : Component) : Component :=
  if negb (isDragging s) && negb (isResizing s) then s
  else
    match videoElement with
    | None => s
    | Some v =>
        match video_parentElement v with
        | None => s
        | Some rect =>
            if isDragging s then
              mkComponent (currentTime s) (duration s)
                (mkPoint (clamp (percent_x e s rect)) (clamp (percent_y e s rect)))
                (subtitleText s) (isDragging s) (dragStart s) (subtitleSize s)
                (isResizing s) (captions s)
            else s
        end
    end.

(** [handleMouseUp()] *)
Definition handleMouseUp (s : Component) : Component :=
  mkComponent (currentTime s) (duration s) (subtitlePosition s)
    (subtitleText s) false (dragStart s) (subtitleSize s) false (captions s).

(** The pointer events the component listens to: [mousedown] on the overlay,
    [mousemove] and [mouseup] on the window. *)
Inductive PointerEvent : Type :=
| MouseDown (e : MouseEvent)
| MouseMove (videoElement : option Video) (e : MouseEvent)
| MouseUp.

Definition dispatch (s : Component) (ev : PointerEvent) : Component :=
  match ev with
  | MouseDown e => handleSubtitleMouseDown e s
  | MouseMove v e => handleMouseMove v e s
  | MouseUp => handleMouseUp s
  end.

Definition run (s : Component) (evs : list PointerEvent) : Component :=
  fold_left dispatch evs s.

Local Close Scope float_scope.

(* ================================================================== *)
(** * Vocabulary of the specification                                  *)
(* ================================================================== *)

(** ** Timecodes: the token shape [H:M:S,m] *)

Fixpoint count_char (c : ascii) (s : string) : nat :=
  match s with
  | EmptyString => 0
  | String b r => (if Ascii.eqb c b then 1 else 0) + count_char c r
  end.

Fixpoint all_digits (s : string) : bool :=
  match s with
  | EmptyString => true
  | String c r => is_digit c && all_digits r
  end.

Definition is_numeral (s : string) : bool :=
  match s with
  | EmptyString => false
  | String _ _ => all_digits s
  end.

Fixpoint numeral_Z (s : string) : Z :=
  match s with
  | EmptyString => 0
  | String c r => digit_value c * 10 ^ Z.of_nat (String.length r) + numeral_Z r
  end.

Definition numeral_value (s : string) : number := of_Z (numeral_Z s).

Definition timecode (H M S m : string) : string :=
  H ++ ":" ++ M ++ ":" ++ S ++ "," ++ m.


(** A recogniser for the token shape: a numeral followed by [sep]. *)
Fixpoint read_digits (s : string) : string :=
  match s with
  | String c r => if is_digit c then read_digits r else s
  | EmptyString => EmptyString
  end.

Definition field_then (sep : ascii) (s : string) : option string :=
  match s with
  | String c r =>
      if is_digit c then
        match read_digits r with
        | String d r' => if Ascii.eqb d sep then Some r' else None
        | EmptyString => None
        end
      else None
  | EmptyString => None
  end.

Definition timecode_shape (s : string) : bool :=
  match field_then ":" s with
  | Some r1 =>
      match field_then ":" r1 with
      | Some r2 =>
          match field_then "," r2 with
          | Some r3 => is_numeral r3
          | None => false
          end
      | None => false
      end
  | None => false
  end.

(** ** Comparing numbers through their IEEE-754 decoding *)

Definition cmp (a b : number) : option comparison :=
  SFcompare (Prim2SF a) (Prim2SF b).

(** ** Blocks of lines *)

Fixpoint all_white_space (s : string) : bool :=
  match s with
  | EmptyString => true
  | String c r => is_white_space c && all_white_space r
  end.

(** A line of caption text: not blank, and without the token [-->]. *)
Definition text_line (l : string) : bool :=
  negb (trim l =? "") && negb (includes "-->" l).

(** The text lines of a block, trimmed and joined by line breaks. *)
Definition joined (ls : list string) : string :=
  String.concat (String LF "") (map trim ls).

(** How many blocks a run of lines opens: a block opens at each non-blank
    line that does not continue a block. *)
Fixpoint blocks_opened (in_block : bool) (lines : list string) : Z :=
  match lines with
  | [] => 0
  | l :: r =>
      if trim l =? "" then blocks_opened false r
      else (if in_block then 0 else 1) + blocks_opened true r
  end.

(** The ids handed out so far, in the order of the captions. *)
Definition open_ids (st : ParseState) : list Z :=
  map id (parsedCaptions st) ++
  match currentCaption st with
  | Some c => [id c]
  | None => []
  end.

(** The integers [a], [a+1], ..., [a+n-1]. *)
Definition Zseq (a : Z) (n : nat) : list Z :=
  map (fun k => (a + Z.of_nat k)%Z) (seq 0 n).

(** The text of a caption after one more text line. *)
Definition add_line (t l : string) : string :=
  t ++ (if t =? "" then "" else String LF "") ++ trim l.

(** Ids are handed out in increasing order, from 1, below [idCounter]. *)
Definition ids_wf (st : ParseState) : Prop :=
  (1 <= idCounter st)%Z /\
  StronglySorted Z.lt (open_ids st) /\
  Forall (fun i => (1 <= i < idCounter st)%Z) (open_ids st).

Definition in_block (st : ParseState) : bool :=
  match currentCaption st with
  | Some _ => true
  | None => false
  end.

(** ** The active caption *)

(** The interval test of the specification:
    [currentTime >= start && currentTime <= end]. *)
Definition in_interval (t : number) (c : Caption) : bool :=
  JS.ge t (to_number (start c)) && JS.le t (to_number (end_ c)).

(** The text of the first caption, in sequence order, whose interval
    contains [t]; the empty string when there is none. *)
Fixpoint visible_text (t : number) (cs : list Caption) : string :=
  match cs with
  | [] => ""
  | c :: r => if in_interval t c then text c else visible_text t r
  end.

(** A caption whose time range was assigned by the parser. *)
Definition timed (c : Caption) : bool :=
  match start c with
  | Some _ => true
  | None => false
  end.

(** The component once [onMount] has stored the parsed captions. *)
Definition loaded (cs : list Caption) : Component :=
  mkComponent (currentTime initial) (duration initial)
    (subtitlePosition initial) (subtitleText initial) (isDragging initial)
    (dragStart initial) (subtitleSize initial) (isResizing initial) cs.

(** The two adjacent captions of the specification's example. *)
Definition captions_AB : list Caption :=
  [ mkCaption 1 "A" false (Some 0%float) (Some 2%float);
    mkCaption 2 "B" false (Some 2%float) (Some 4%float) ].

(** A video element that reports the playback position [t]. *)
Definition playing_at (t : number) : option Video :=
  Some (mkVideo t 4%float None).

(** Lines joined by line feeds, to write subtitle files down. *)
Definition unlines (ls : list string) : string :=
  String.concat (String LF "") ls.

(** A file whose first block has a time range but no text. *)
Definition srt_empty_first_block : string :=
  unlines [ "1"; "00:00:01,000 --> 00:00:02,000"; "";
            "2"; "00:00:03,000 --> 00:00:04,000"; "Hi" ].

(** A file with two complete blocks. *)
Definition srt_two_blocks : string :=
  unlines [ "1"; "00:00:01,000 --> 00:00:02,000"; "Hello"; "";
            "2"; "00:00:03,000 --> 00:00:04,000"; "Hi" ].

(** ** The overlay anchor *)




(** A press on the overlay body, and one on a resize handle, with the offset
    size of the target's parent. *)
Definition press_body (px py w h : number) : PointerEvent :=
  MouseDown (mkMouseEvent px py false w h).

Definition press_handle (px py w h : number) : PointerEvent :=
  MouseDown (mkMouseEvent px py true w h).

(** A move to [(px, py)] while the container measures [w] by [h]. *)
Definition move_to (px py w h : number) : PointerEvent :=
  MouseMove (Some (mkVideo 0%float 0%float (Some (mkRect w h))))
    (mkMouseEvent px py false 0%float 0%float).

Arguments press_body (px py w h)%_float.
Arguments press_handle (px py w h)%_float.
Arguments move_to (px py w h)%_float.







(** ** The order of binary64 numbers as an order on integer triples *)

(** A key whose lexicographic order is the order of the numbers: the sign
    class first, then the exponent, then the mantissa (both negated for
    negative numbers).  NaN has no place in the order; its key is unused. *)
Definition key (a : spec_float) : Z * Z * Z :=
  match a with
  | S754_zero _ => (0, 0, 0)%Z
  | S754_infinity false => (2, 0, 0)%Z
  | S754_infinity true => (-2, 0, 0)%Z
  | S754_nan => (0, 0, 0)%Z
  | S754_finite false m e => (1, e, Zpos m)%Z
  | S754_finite true m e => (-1, - e, Zneg m)%Z
  end.

Definition lex_le (k1 k2 : Z * Z * Z) : Prop :=
  let '(a1, a2, a3) := k1 in
  let '(b1, b2, b3) := k2 in
  (a1 < b1 \/ (a1 = b1 /\ (a2 < b2 \/ (a2 = b2 /\ a3 <= b3))))%Z.

Definition lex_lt (k1 k2 : Z * Z * Z) : Prop :=
  let '(a1, a2, a3) := k1 in
  let '(b1, b2, b3) := k2 in
  (a1 < b1 \/ (a1 = b1 /\ (a2 < b2 \/ (a2 = b2 /\ a3 < b3))))%Z.

Definition numeric (a : number) : Prop := Prim2SF a <> S754_nan.

Definition nkey (a : number) : Z * Z * Z := key (Prim2SF a).


(* ================================================================== *)
(** * Further handlers of the component                                *)
(* ================================================================== *)

(** [handleCaptionUpdate(id, newText)]:
    [captions.map(c => c.id === id ? { ...c, text: newText } : c)]. *)
Definition handleCaptionUpdate (id' : Z) (newText : string) (s : Component)
  : Component :=
  mkComponent (currentTime s) (duration s) (subtitlePosition s)
    (subtitleText s) (isDragging s) (dragStart s) (subtitleSize s)
    (isResizing s)
    (map (fun c =>
            if (id c =? id')%Z
            then mkCaption (id c) newText (active c) (start c) (end_ c)
            else c)
         (captions s)).


(** [togglePlay()]: the new value of [isPlaying] and the method it calls on
    the video element. *)
Inductive VideoCall : Set := CallPlay | CallPause.

Definition togglePlay (videoElement : option Video) (isPlaying : bool)
  : bool * option VideoCall :=
  match videoElement with
  | None => (isPlaying, None)
  | Some _ =>
      (negb isPlaying, Some (if isPlaying then CallPause else CallPlay))
  end.

(** Clicking the play button [n] times: the flag and the calls made. *)
Fixpoint togglePlay_times (videoElement : option Video) (n : nat)
  (isPlaying : bool) : bool * list VideoCall :=
  match n with
  | O => (isPlaying, [])
  | S k =>
      let '(p, call) := togglePlay videoElement isPlaying in
      let '(p', calls) := togglePlay_times videoElement k p in
      (p', match call with Some c => c :: calls | None => calls end)
  end.

(** A caption whose [end] lies before its [start]. *)
Definition inverted (c : Caption) : bool :=
  (to_number (end_ c) <? to_number (start c))%float.

Definition is_move (ev : PointerEvent) : bool :=
  match ev with
  | MouseMove _ _ => true
  | _ => false
  end.

(** ** Outcomes of the parser *)

(** A string that is not empty, starts with a code unit that is not white
    space and has no white space at its end. *)
Definition tidy (s : string) : Prop :=
  match s with
  | String c _ => is_white_space c = false /\ trimEnd s = s
  | EmptyString => False
  end.

(** A caption as the parser commits it. *)
Definition committed_wf (c : Caption) : Prop :=
  active c = false /\ tidy (text c) /\
  (start c = None <-> end_ c = None).

(** A time range line one of whose two timecodes has fewer than two
    colons. *)
Definition bad_range (l : string) : bool :=
  match map trim (split "-->" l) with
  | a :: b :: _ =>
      (count_char ":" a <? 2)%nat || (count_char ":" b <? 2)%nat
  | _ => true
  end.

(** Some line that continues a block contains [-->] and is a bad range. *)
Fixpoint has_bad_range (in_block : bool) (lines : list string) : bool :=
  match lines with
  | [] => false
  | l :: r =>
      if trim l =? "" then has_bad_range false r
      else if in_block && includes "-->" l && bad_range l then true
      else has_bad_range true r
  end.

(** The caption under construction, and the state of the loop. *)
Definition open_wf (c : Caption) : Prop :=
  active c = false /\ (text c = "" \/ tidy (text c)) /\
  (start c = None <-> end_ c = None).

Definition state_wf (st : ParseState) : Prop :=
  Forall committed_wf (parsedCaptions st) /\
  match currentCaption st with
  | Some c => open_wf c
  | None => True
  end.

(** ** Line breaks *)

Fixpoint last_is_CR (s : string) : bool :=
  match s with
  | EmptyString => false
  | String c EmptyString => Ascii.eqb c CR
  | String _ r => last_is_CR r
  end.

(** A line without any CR or LF in it. *)
Definition plain (l : string) : Prop :=
  count_char LF l = 0 /\ count_char CR l = 0.

(** Lines joined by CR LF. *)
Definition crlf_lines (ls : list string) : string :=
  String.concat (String CR (String LF "")) ls.

(** The two times a range line converts to. *)
Definition range_of (l : string) : completion (number * number) :=
  match map trim (split "-->" l) with
  | a :: b :: _ =>
      s <- srtTimeToSeconds a ;;
      e <- srtTimeToSeconds b ;;
      Normal (s, e)
  | _ => Throw TypeError
  end.

(** The lines of a block that count as text. *)
Definition text_lines (body : list string) : list string :=
  filter (fun l => negb (includes "-->" l)) body.

(** What may follow the digits of the milliseconds: nothing, or anything
    that does not start with a digit. *)
Definition no_leading_digit (s : string) : bool :=
  match s with
  | String c _ => negb (is_digit c)
  | EmptyString => true
  end.

(** ** Numbers that are not negative *)

(** [+0], a positive finite number or [+Infinity], on the IEEE-754
    decoding; NaN, [-0] and the negative numbers are excluded. *)
Definition sf_nonneg (a : spec_float) : bool :=
  match a with
  | S754_zero false | S754_infinity false | S754_finite false _ _ => true
  | _ => false
  end.

Definition nonneg (a : number) : bool := sf_nonneg (Prim2SF a).

(** ** The blocks of a subtitle file *)

(** The lines cut at the blank lines: the first group is what comes before
    the first blank line, and so on; groups may be empty. *)
Fixpoint line_groups (lines : list string) : list (list string) :=
  match lines with
  | [] => [[]]
  | l :: r =>
      if trim l =? "" then [] :: line_groups r
      else
        match line_groups r with
        | g :: gs => (l :: g) :: gs
        | [] => [[l]]
        end
  end.

Definition nonempty (g : list string) : bool :=
  match g with
  | [] => false
  | _ :: _ => true
  end.

(** The blocks of a file, in order: the maximal runs of non-blank lines. *)
Definition srt_blocks (lines : list string) : list (list string) :=
  filter nonempty (line_groups lines).

(** Some of these lines is a text line (it has no [-->]). *)
Definition some_text (body : list string) : bool :=
  existsb (fun l => negb (includes "-->" l)) body.

(** A block has text when some line after its first is a text line. *)
Definition has_text (b : list string) : bool :=
  match b with
  | [] => false
  | _ :: body => some_text body
  end.

(** The positions, counted from [k], of the blocks that have text. *)
Fixpoint committed_ordinals (k : Z) (bs : list (list string)) : list Z :=
  match bs with
  | [] => []
  | b :: r =>
      (if has_text b then [k] else []) ++ committed_ordinals (k + 1) r
  end.

(* ================================================================== *)
(** * Order and special values of binary64 numbers                     *)
(* ================================================================== *)

Section FloatOrder.
Local Open Scope float_scope.

Lemma ltb_cmp a b : (a <? b) = true <-> cmp a b = Some Lt.
Proof.
  rewrite ltb_spec. unfold SFltb, cmp.
  destruct (SFcompare _ _) as [[]|]; split; congruence.
Qed.

Lemma leb_cmp a b : (a <=? b) = true <-> cmp a b = Some Lt \/ cmp a b = Some Eq.
Proof.
  rewrite leb_spec. unfold SFleb, cmp.
  destruct (SFcompare _ _) as [[]|]; split; intros; try tauto; try congruence;
    destruct H; congruence.
Qed.

Lemma is_nan_spec a : is_nan a = true <-> Prim2SF a = S754_nan.
Proof.
  unfold is_nan. rewrite eqb_spec. unfold SFeqb.
  destruct (Prim2SF a) as [s| s | | s m e]; simpl; try (split; congruence).
  - destruct s; simpl; split; congruence.
  - rewrite Z.compare_refl.
    assert (PosDef.Pos.compare_cont Eq m m = Eq) as -> by apply Pos.compare_cont_refl.
    destruct s; simpl; split; congruence.
Qed.

Lemma cmp_total a b :
  is_nan a = false -> is_nan b = false -> cmp a b <> None.
Proof.
  intros Ha Hb. unfold cmp.
  destruct (Prim2SF a) eqn:Ea; destruct (Prim2SF b) eqn:Eb; simpl; try congruence.
  all: try (apply is_nan_spec in Ea; congruence).
  all: try (apply is_nan_spec in Eb; congruence).
Qed.

Lemma cmp_sym_Gt a b : cmp a b = Some Gt -> cmp b a = Some Lt.
Proof.
  unfold cmp.
  destruct (Prim2SF a) as [s| s | | s m e]; destruct (Prim2SF b) as [s'| s' | | s' m' e'];
    simpl; try congruence.
  all: try (destruct s; simpl; congruence).
  all: try (destruct s'; simpl; congruence).
  all: try (destruct s, s'; simpl; congruence).
  destruct s, s'; simpl; try congruence;
    rewrite (Z.compare_antisym e e');
    destruct (e ?= e')%Z; simpl; try congruence;
    change (PosDef.Pos.compare_cont Eq) with Pos.compare;
    rewrite (Pos.compare_antisym m m');
    destruct (m ?= m')%positive; simpl; congruence.
Qed.

Lemma ltb_leb a b : (a <? b) = true -> (a <=? b) = true.
Proof. rewrite ltb_cmp, leb_cmp. auto. Qed.

Lemma tie_leb a b :
  is_nan a = false -> is_nan b = false ->
  (a <? b) = false -> (b <? a) = false ->
  (a <=? b) = true /\ (b <=? a) = true.
Proof.
  intros Ha Hb Hab Hba.
  pose proof (cmp_total a b Ha Hb) as T.
  assert (E : cmp a b = Some Eq).
  { destruct (cmp a b) as [[]|] eqn:E; try congruence.
    - apply ltb_cmp in E. congruence.
    - apply cmp_sym_Gt, ltb_cmp in E. congruence. }
  pose proof (cmp_total b a Hb Ha) as T'.
  assert (E' : cmp b a = Some Eq).
  { destruct (cmp b a) as [[]|] eqn:E'; try congruence.
    - apply ltb_cmp in E'. congruence.
    - apply cmp_sym_Gt, ltb_cmp in E'. congruence. }
  rewrite !leb_cmp. auto.
Qed.

Lemma Math_min_cases a b :
  is_nan a = false -> is_nan b = false ->
  (Math_min a b = a /\ (a <=? b) = true) \/
  (Math_min a b = b /\ (b <=? a) = true).
Proof.
  intros Ha Hb. unfold Math_min. rewrite Ha, Hb. simpl.
  destruct (a <? b) eqn:H1; [left; auto using ltb_leb|].
  destruct (b <? a) eqn:H2; [right; auto using ltb_leb|].
  destruct (tie_leb a b Ha Hb H1 H2).
  destruct (get_sign a); auto.
Qed.

Lemma Math_max_cases a b :
  is_nan a = false -> is_nan b = false ->
  (Math_max a b = b /\ (a <=? b) = true) \/
  (Math_max a b = a /\ (b <=? a) = true).
Proof.
  intros Ha Hb. unfold Math_max. rewrite Ha, Hb. simpl.
  destruct (a <? b) eqn:H1; [left; auto using ltb_leb|].
  destruct (b <? a) eqn:H2; [right; auto using ltb_leb|].
  destruct (tie_leb a b Ha Hb H1 H2).
  destruct (get_sign a); auto.
Qed.

Lemma clamp_bounds v :
  is_nan v = false -> (10 <=? clamp v) = true /\ (clamp v <=? 90) = true.
Proof.
  intros Hv. unfold clamp.
  assert (H90 : is_nan 90 = false) by reflexivity.
  assert (H10 : is_nan 10 = false) by reflexivity.
  destruct (Math_min_cases 90 v H90 Hv) as [[-> L]|[-> L]].
  - destruct (Math_max_cases 10 90 H10 H90) as [[-> _]|[-> _]];
      split; reflexivity.
  - destruct (Math_max_cases 10 v H10 Hv) as [[-> L']|[-> _]].
    + split; assumption.
    + split; reflexivity.
Qed.

Lemma clamp_nan v : is_nan v = true -> clamp v = nan.
Proof.
  intros Hv. unfold clamp, Math_min. rewrite Hv, orb_true_r. reflexivity.
Qed.
End FloatOrder.

(* ================================================================== *)
(** * Splitting and reading timecodes                                  *)
(* ================================================================== *)

Section Strings.


Lemma split_char_cons c b r :
  split (String c "") (String b r) =
  if Ascii.eqb c b then "" :: split (String c "") r
  else cons_head b (split (String c "") r).
Proof.
  unfold split. simpl. rewrite andb_true_r. reflexivity.
Qed.

Lemma split_char_absent c a :
  count_char c a = 0 -> split (String c "") a = [a].
Proof.
  induction a as [|b a IH]; intros H.
  - reflexivity.
  - rewrite split_char_cons. simpl in H.
    destruct (Ascii.eqb c b); [discriminate|].
    rewrite IH by assumption. reflexivity.
Qed.

Lemma split_char_app c a r :
  count_char c a = 0 ->
  split (String c "") (a ++ String c r) = a :: split (String c "") r.
Proof.
  induction a as [|b a IH]; intros H.
  - simpl. rewrite split_char_cons, Ascii.eqb_refl. reflexivity.
  - simpl append. rewrite split_char_cons. simpl in H.
    destruct (Ascii.eqb c b); [discriminate|].
    rewrite IH by assumption. reflexivity.
Qed.

Lemma split_char_length c s :
  List.length (split (String c "") s) = S (count_char c s).
Proof.
  induction s as [|b s IH].
  - reflexivity.
  - rewrite split_char_cons. simpl count_char.
    destruct (Ascii.eqb c b); simpl.
    + rewrite IH. reflexivity.
    + destruct (split (String c "") s); simpl in *; lia.
Qed.

Lemma count_char_app c a b :
  count_char c (a ++ b) = count_char c a + count_char c b.
Proof. induction a; simpl; lia. Qed.

Lemma digit_not_white_space c : is_digit c = true -> is_white_space c = false.
Proof.
  destruct c as [[] [] [] [] [] [] [] []]; intros H; vm_compute in H;
    try discriminate; reflexivity.
Qed.

Lemma digit_not_sep c b :
  is_digit b = false -> is_digit c = true -> Ascii.eqb b c = false.
Proof.
  intros Hb Hc. destruct (Ascii.eqb b c) eqn:E; [|reflexivity].
  apply Ascii.eqb_eq in E. congruence.
Qed.

Lemma all_digits_count b d :
  is_digit b = false -> all_digits d = true -> count_char b d = 0.
Proof.
  intros Hb. induction d as [|c d IH]; simpl; intros H; [reflexivity|].
  apply andb_true_iff in H as [Hc Hd].
  rewrite (digit_not_sep c b Hb Hc), IH by assumption. reflexivity.
Qed.

Lemma is_numeral_all_digits d : is_numeral d = true -> all_digits d = true.
Proof. destruct d; [discriminate|auto]. Qed.

Lemma digits_prefix_all d : all_digits d = true -> digits_prefix d = d.
Proof.
  induction d as [|c d IH]; simpl; intros H; [reflexivity|].
  apply andb_true_iff in H as [-> Hd]. rewrite IH by assumption. reflexivity.
Qed.

Lemma digits_value_numeral d acc :
  digits_value acc d = (acc * 10 ^ Z.of_nat (String.length d) + numeral_Z d)%Z.
Proof.
  revert acc. induction d as [|c d IH]; intros acc.
  - simpl. lia.
  - cbn [digits_value numeral_Z String.length]. rewrite IH.
    rewrite Nat2Z.inj_succ, Z.pow_succ_r by lia. ring.
Qed.

Lemma parseInt_digit_head c r :
  is_digit c = true ->
  parseInt (Some (String c r)) =
  match digits_prefix (String c r) with
  | EmptyString => nan
  | digits =>
      let mathInt := digits_value 0 digits in
      if (mathInt =? 0)%Z then 0%float else of_Z mathInt
  end.
Proof.
  intros H. unfold parseInt.
  cbn [trimStart]. rewrite (digit_not_white_space c H).
  destruct c as [[] [] [] [] [] [] [] []]; vm_compute in H;
    try discriminate; reflexivity.
Qed.

Lemma parseInt_numeral d :
  is_numeral d = true -> parseInt (Some d) = numeral_value d.
Proof.
  intros H. pose proof (is_numeral_all_digits d H) as Hd.
  destruct d as [|c r]; [discriminate|].
  assert (Hc : is_digit c = true).
  { simpl in Hd. apply andb_true_iff in Hd. tauto. }
  rewrite (parseInt_digit_head c r Hc), (digits_prefix_all _ Hd).
  cbv zeta. rewrite digits_value_numeral, Z.mul_0_l, Z.add_0_l.
  unfold numeral_value.
  destruct (numeral_Z (String c r) =? 0)%Z eqn:E; [|reflexivity].
  apply Z.eqb_eq in E. rewrite E. reflexivity.
Qed.

Lemma srtTimeToSeconds_timecode H M S m :
  is_numeral H = true -> is_numeral M = true ->
  is_numeral S = true -> is_numeral m = true ->
  srtTimeToSeconds (timecode H M S m) =
  Normal (numeral_value H * 3600 + numeral_value M * 60 +
          numeral_value S + numeral_value m / 1000)%float.
Proof.
  intros HH HM HS Hm.
  pose proof (is_numeral_all_digits _ HH) as dH.
  pose proof (is_numeral_all_digits _ HM) as dM.
  pose proof (is_numeral_all_digits _ HS) as dS.
  pose proof (is_numeral_all_digits _ Hm) as dm.
  unfold srtTimeToSeconds, timecode.
  change (H ++ ":" ++ M ++ ":" ++ S ++ "," ++ m)
    with (H ++ String ":" (M ++ String ":" (S ++ String "," m))).
  rewrite !split_char_app by (apply all_digits_count; auto).
  rewrite split_char_absent.
  2:{ rewrite count_char_app. simpl.
      rewrite !all_digits_count by auto. reflexivity. }
  cbn [nth_error].
  rewrite split_char_app by (apply all_digits_count; auto).
  rewrite split_char_absent by (apply all_digits_count; auto).
  cbn [nth_error].
  rewrite !parseInt_numeral by assumption. reflexivity.
Qed.


End Strings.

Section Shape.

Lemma read_digits_split s :
  exists d, all_digits d = true /\ s = d ++ read_digits s /\
            match read_digits s with
            | String c _ => is_digit c = false
            | EmptyString => True
            end.
Proof.
  induction s as [|c s (d & Hd & Hs & Hr)].
  - exists "". simpl. auto.
  - simpl. destruct (is_digit c) eqn:Hc.
    + exists (String c d). simpl. rewrite Hc, Hd.
      split; [reflexivity|]. split; [f_equal; exact Hs|exact Hr].
    + exists "". simpl. auto.
Qed.

Lemma read_digits_app d sep r :
  all_digits d = true -> is_digit sep = false ->
  read_digits (d ++ String sep r) = String sep r.
Proof.
  intros Hd Hsep. induction d as [|c d IH]; simpl in *.
  - rewrite Hsep. reflexivity.
  - apply andb_true_iff in Hd as [-> Hd]. auto.
Qed.

Lemma field_then_some sep s r :
  field_then sep s = Some r ->
  exists d, is_numeral d = true /\ s = d ++ String sep r.
Proof.
  unfold field_then. destruct s as [|c s]; [discriminate|].
  destruct (is_digit c) eqn:Hc; [|discriminate].
  destruct (read_digits_split s) as (d & Hd & Hs & _).
  destruct (read_digits s) as [|b r'] eqn:E; [discriminate|].
  destruct (Ascii.eqb b sep) eqn:Hb; [|discriminate].
  intros [= <-]. apply Ascii.eqb_eq in Hb. subst b.
  exists (String c d). simpl. rewrite Hc, Hd.
  split; [reflexivity|f_equal; exact Hs].
Qed.

Lemma field_then_numeral sep d r :
  is_numeral d = true -> is_digit sep = false ->
  field_then sep (d ++ String sep r) = Some r.
Proof.
  intros Hd Hsep. destruct d as [|c d]; [discriminate|].
  simpl in Hd. apply andb_true_iff in Hd as [Hc Hd].
  simpl. rewrite Hc, (read_digits_app d sep r Hd Hsep), Ascii.eqb_refl.
  reflexivity.
Qed.

(** The recogniser accepts exactly the strings [H:M:S,m] whose four fields
    are decimal numerals. *)
Lemma timecode_shape_iff s :
  timecode_shape s = true <->
  exists H M S m,
    is_numeral H = true /\ is_numeral M = true /\
    is_numeral S = true /\ is_numeral m = true /\ s = timecode H M S m.
Proof.
  unfold timecode_shape, timecode. split.
  - destruct (field_then ":" s) as [r1|] eqn:E1; [|discriminate].
    destruct (field_then ":" r1) as [r2|] eqn:E2; [|discriminate].
    destruct (field_then "," r2) as [r3|] eqn:E3; [|discriminate].
    intros H3.
    apply field_then_some in E1 as (H & HH & ->).
    apply field_then_some in E2 as (M & HM & ->).
    apply field_then_some in E3 as (S & HS & ->).
    exists H, M, S, r3. auto.
  - intros (H & M & S & m & HH & HM & HS & Hm & ->).
    change (H ++ ":" ++ M ++ ":" ++ S ++ "," ++ m)
      with (H ++ String ":" (M ++ String ":" (S ++ String "," m))).
    rewrite !field_then_numeral by (assumption || reflexivity).
    assumption.
Qed.

End Shape.

Section Timecodes.

Local Open Scope float_scope.

Lemma add_nan_r a : a + nan = nan.
Proof.
  rewrite <- (SF2Prim_Prim2SF (a + nan)), add_spec.
  change (Prim2SF nan) with S754_nan.
  destruct (Prim2SF a); reflexivity.
Qed.

Local Close Scope float_scope.

Lemma split_char_pieces c b s :
  count_char b s = 0 ->
  Forall (fun p => count_char b p = 0) (split (String c "") s).
Proof.
  induction s as [|a s IH]; intros H.
  - repeat constructor.
  - rewrite split_char_cons. simpl in H.
    assert (Ha : (if Ascii.eqb b a then 1 else 0) = 0) by lia.
    assert (Hs : count_char b s = 0) by lia.
    specialize (IH Hs).
    destruct (Ascii.eqb c a).
    + constructor; [reflexivity|assumption].
    + destruct (split (String c "") s) as [|h t]; simpl.
      * repeat constructor. simpl. lia.
      * inversion IH; subst. constructor; [simpl; lia|assumption].
Qed.

Lemma srtTimeToSeconds_throws_iff s :
  throws (srtTimeToSeconds s) = true <-> count_char ":" s < 2.
Proof.
  unfold srtTimeToSeconds.
  pose proof (split_char_length ":" s) as L.
  destruct (split ":" s) as [|p0 [|p1 [|p2 t]]]; simpl in *; split;
    intros; try reflexivity; try discriminate; lia.
Qed.

Lemma srtTimeToSeconds_no_comma s :
  2 <= count_char ":" s -> count_char "," s = 0 ->
  srtTimeToSeconds s = Normal nan.
Proof.
  intros H2 H0. unfold srtTimeToSeconds.
  pose proof (split_char_length ":" s) as L.
  pose proof (split_char_pieces ":" "," s H0) as P.
  destruct (split ":" s) as [|p0 [|p1 [|p2 t]]]; simpl in L; try lia.
  cbn [nth_error].
  assert (Hp2 : count_char "," p2 = 0).
  { inversion P as [|? ? _ P1]; subst. inversion P1 as [|? ? _ P2]; subst.
    inversion P2; subst. assumption. }
  rewrite (split_char_absent "," p2 Hp2). cbn [nth_error].
  change (parseInt None) with nan.
  change (nan / 1000)%float with nan.
  rewrite add_nan_r. reflexivity.
Qed.

End Timecodes.

(** C2.  For all decimal numerals H, M, S and m, converting the timecode
    [H:M:S,m] returns hours*3600 + minutes*60 + seconds + milliseconds/1000,
    computed in binary64 arithmetic on the values of the four numerals; no
    field is range-checked (75 minutes are accepted), and "00:01:02,500"
    converts to 62.5. *)
Theorem srtTimeToSeconds_arithmetic :
  (forall H M S m,
      is_numeral H = true -> is_numeral M = true ->
      is_numeral S = true -> is_numeral m = true ->
      srtTimeToSeconds (timecode H M S m) =
      Normal (numeral_value H * 3600 + numeral_value M * 60 +
              numeral_value S + numeral_value m / 1000)%float)
  /\ srtTimeToSeconds "00:01:02,500" = Normal 62.5%float
  /\ srtTimeToSeconds "00:75:02,500" = Normal 4502.5%float.
Proof.
  split; [exact srtTimeToSeconds_timecode|].
  split; reflexivity.
Qed.

Lemma srtTimeToSeconds_arithmetic_witness :
  srtTimeToSeconds (timecode "01" "75" "02" "250") =
  Normal (numeral_value "01" * 3600 + numeral_value "75" * 60 +
          numeral_value "02" + numeral_value "250" / 1000)%float
  /\ (numeral_value "01" * 3600 + numeral_value "75" * 60 +
      numeral_value "02" + numeral_value "250" / 1000)%float = 8102.25%float.
Proof.
  split.
  - apply (proj1 srtTimeToSeconds_arithmetic); reflexivity.
  - reflexivity.
Defined.

(* ================================================================== *)
(** * The parser loop                                                  *)
(* ================================================================== *)

Section WhiteSpace.

Lemma all_white_space_app a b :
  all_white_space (a ++ b) = all_white_space a && all_white_space b.
Proof.
  induction a as [|c a IH]; simpl; [reflexivity|].
  rewrite IH, andb_assoc. reflexivity.
Qed.

Lemma all_white_space_trimStart s :
  all_white_space (trimStart s) = all_white_space s.
Proof.
  induction s as [|c s IH]; simpl; [reflexivity|].
  destruct (is_white_space c) eqn:E; simpl; [assumption|].
  rewrite E. reflexivity.
Qed.

Lemma trimEnd_empty_iff s :
  trimEnd s = "" <-> all_white_space s = true.
Proof.
  induction s as [|c s IH]; simpl; [tauto|].
  destruct (trimEnd s) eqn:E.
  - destruct (is_white_space c); simpl; split; intros; try discriminate;
      tauto.
  - split; [discriminate|]. intros H. apply andb_true_iff in H as [_ H].
    apply IH in H. discriminate.
Qed.

Lemma trim_empty_iff s : trim s = "" <-> all_white_space s = true.
Proof.
  unfold trim. rewrite trimEnd_empty_iff, all_white_space_trimStart. tauto.
Qed.

Lemma trimEnd_not_white s :
  trimEnd s <> "" -> all_white_space (trimEnd s) = false.
Proof.
  induction s as [|c s IH]; simpl; [congruence|].
  destruct (trimEnd s) eqn:E.
  - destruct (is_white_space c) eqn:W; [congruence|].
    intros _. simpl. rewrite W. reflexivity.
  - intros _. assert (H : all_white_space (String a s0) = false)
      by (apply IH; discriminate).
    simpl in *. rewrite H. apply andb_false_r.
Qed.

Lemma trim_not_white s :
  (trim s =? "") = false -> all_white_space (trim s) = false.
Proof.
  intros H. apply trimEnd_not_white. intros E. unfold trim in H.
  rewrite E in H. discriminate.
Qed.

Lemma blank_iff s : (trim s =? "") = true <-> all_white_space s = true.
Proof. rewrite String.eqb_eq. apply trim_empty_iff. Qed.

End WhiteSpace.

Section Blocks.

Lemma append_assoc (a b c : string) : (a ++ b) ++ c = a ++ b ++ c.
Proof. induction a as [|h a IH]; simpl; [reflexivity|]. rewrite IH. reflexivity. Qed.

Lemma append_empty_r (a : string) : a ++ "" = a.
Proof. induction a as [|h a IH]; simpl; [reflexivity|]. rewrite IH. reflexivity. Qed.

Lemma concat_cons_app sep a b xs :
  String.concat sep ((a ++ sep ++ b) :: xs) = a ++ sep ++ String.concat sep (b :: xs).
Proof.
  destruct xs as [|x xs]; simpl; [reflexivity|].
  rewrite !append_assoc. reflexivity.
Qed.

Lemma fold_add_line ls : forall t,
  t <> "" ->
  fold_left add_line ls t = String.concat (String LF "") (t :: map trim ls).
Proof.
  induction ls as [|l ls IH]; intros t Ht.
  - reflexivity.
  - cbn [fold_left map]. unfold add_line at 2.
    destruct (t =? "") eqn:E; [apply String.eqb_eq in E; congruence|].
    rewrite IH.
    + rewrite concat_cons_app. reflexivity.
    + destruct t; [congruence|discriminate].
Qed.

Lemma text_line_spec l :
  text_line l = true ->
  (trim l =? "") = false /\ includes "-->" l = false.
Proof.
  unfold text_line. intros H. apply andb_true_iff in H as [H1 H2].
  apply negb_true_iff in H1, H2. auto.
Qed.

Lemma fold_add_line_joined l ls :
  (trim l =? "") = false ->
  fold_left add_line (l :: ls) "" = joined (l :: ls).
Proof.
  intros H. cbn [fold_left]. unfold add_line at 2. simpl.
  apply fold_add_line. intros E. rewrite E in H. discriminate.
Qed.

Lemma joined_not_blank l ls :
  (trim l =? "") = false -> (trim (joined (l :: ls)) =? "") = false.
Proof.
  intros H. apply not_true_iff_false. rewrite blank_iff.
  apply not_true_iff_false.
  assert (E : exists r, joined (l :: ls) = trim l ++ r).
  { unfold joined. simpl. destruct (map trim ls); eauto.
    exists "". symmetry. apply append_empty_r. }
  destruct E as [r ->].
  rewrite all_white_space_app, (trim_not_white l H). reflexivity.
Qed.

(** Text lines only add to the text of the open caption. *)
Lemma loop_text_lines ls : forall st c,
  currentCaption st = Some c ->
  forallb text_line ls = true ->
  parseSrt_loop st ls =
  Normal (mkParseState (parsedCaptions st)
            (Some (mkCaption (id c) (fold_left add_line ls (text c))
                     (active c) (start c) (end_ c)))
            (idCounter st)).
Proof.
  induction ls as [|l ls IH]; intros [p cur n] c Hc Hls; simpl in Hc; subst cur.
  - destruct c; reflexivity.
  - cbn [forallb] in Hls. apply andb_true_iff in Hls as [Hl Hls].
    apply text_line_spec in Hl as [Hb Ha].
    cbn [parseSrt_loop]. unfold parseSrt_line. rewrite Hb.
    cbn [currentCaption]. rewrite Ha. cbn [bind].
    rewrite (IH _ (append_text c l)) by (reflexivity || assumption).
    reflexivity.
Qed.

(** The first non-blank line after a block boundary opens a caption and is
    otherwise ignored, whatever it contains. *)
Lemma loop_open st l0 rest :
  currentCaption st = None -> (trim l0 =? "") = false ->
  parseSrt_loop st (l0 :: rest) =
  parseSrt_loop
    (mkParseState (parsedCaptions st)
       (Some (mkCaption (idCounter st) "" false None None))
       (idCounter st + 1)) rest.
Proof.
  intros Hc Hb. cbn [parseSrt_loop]. unfold parseSrt_line.
  rewrite Hb, Hc. reflexivity.
Qed.

Lemma block_without_range st l0 l ls :
  currentCaption st = None -> (trim l0 =? "") = false ->
  forallb text_line (l :: ls) = true ->
  parseSrt_loop st (l0 :: l :: ls) =
  Normal (mkParseState (parsedCaptions st)
            (Some (mkCaption (idCounter st) (joined (l :: ls)) false None None))
            (idCounter st + 1)).
Proof.
  intros Hc Hb Hls. rewrite loop_open by assumption.
  erewrite loop_text_lines by (reflexivity || eassumption).
  cbn [parsedCaptions idCounter id text active start end_].
  rewrite fold_add_line_joined; [reflexivity|].
  cbn [forallb] in Hls. apply andb_true_iff in Hls as [Hl _].
  apply text_line_spec in Hl. tauto.
Qed.

(** Committing an open caption whose text is a joined run of text lines. *)
Lemma push_joined p n i l ls s e :
  (trim l =? "") = false ->
  push_current (mkParseState p (Some (mkCaption i (joined (l :: ls)) false s e)) n)
  = (p ++ [mkCaption i (joined (l :: ls)) false s e])%list.
Proof.
  intros H. unfold push_current. cbn [currentCaption text parsedCaptions].
  rewrite (joined_not_blank l ls H). reflexivity.
Qed.

Lemma loop_app l1 : forall st l2,
  parseSrt_loop st (l1 ++ l2) =
  (st' <- parseSrt_loop st l1 ;; parseSrt_loop st' l2).
Proof.
  induction l1 as [|l l1 IH]; intros st l2; [reflexivity|].
  cbn [app parseSrt_loop]. destruct (parseSrt_line st l); cbn [bind]; auto.
Qed.

Lemma line_blank st l :
  (trim l =? "") = true ->
  parseSrt_line st l = Normal (mkParseState (push_current st) None (idCounter st)).
Proof. intros H. unfold parseSrt_line. rewrite H. reflexivity. Qed.

End Blocks.

Section Ranges.

Lemma split_arrow_cons c r :
  Ascii.eqb "-" c = false ->
  split "-->" (String c r) = cons_head c (split "-->" r).
Proof.
  intros H. unfold split. cbn [split_from starts_with]. rewrite H.
  reflexivity.
Qed.

Lemma count_char_cons_0 b c r :
  count_char b (String c r) = 0 ->
  Ascii.eqb b c = false /\ count_char b r = 0.
Proof.
  simpl. destruct (Ascii.eqb b c); [discriminate|]. auto.
Qed.

Lemma split_arrow_absent b :
  count_char "-" b = 0 -> split "-->" b = [b].
Proof.
  induction b as [|c b IH]; intros H; [reflexivity|].
  apply count_char_cons_0 in H as [Hc Hb].
  rewrite split_arrow_cons, IH by assumption. reflexivity.
Qed.

Lemma split_arrow_app a b :
  count_char "-" a = 0 ->
  split "-->" (a ++ "-->" ++ b) = a :: split "-->" b.
Proof.
  induction a as [|c a IH]; intros H.
  - reflexivity.
  - apply count_char_cons_0 in H as [Hc Ha].
    cbn [append]. rewrite split_arrow_cons by assumption.
    change (a ++ String "-" (String "-" (String ">" b)))
      with (a ++ "-->" ++ b).
    rewrite IH by assumption. reflexivity.
Qed.

Lemma includes_arrow_app a b : includes "-->" (a ++ "-->" ++ b) = true.
Proof.
  induction a as [|c a IH].
  - reflexivity.
  - cbn [append includes].
    change (a ++ String "-" (String "-" (String ">" b)))
      with (a ++ "-->" ++ b).
    rewrite IH. apply orb_true_r.
Qed.

Lemma range_not_blank a b : (trim (a ++ "-->" ++ b) =? "") = false.
Proof.
  apply not_true_iff_false. rewrite blank_iff, all_white_space_app.
  simpl. rewrite andb_false_r. discriminate.
Qed.

Lemma assign_range_app c a b s e :
  count_char "-" a = 0 -> count_char "-" b = 0 ->
  srtTimeToSeconds (trim a) = Normal s ->
  srtTimeToSeconds (trim b) = Normal e ->
  assign_range c (a ++ "-->" ++ b) =
  Normal (mkCaption (id c) (text c) (active c) (Some s) (Some e)).
Proof.
  intros Ha Hb Hs He. unfold assign_range.
  rewrite (split_arrow_app a b Ha), (split_arrow_absent b Hb).
  cbn [map nth_error]. rewrite Hs, He. reflexivity.
Qed.

Lemma loop_cons st l rest :
  parseSrt_loop st (l :: rest) =
  (st' <- parseSrt_line st l ;; parseSrt_loop st' rest).
Proof. reflexivity. Qed.

Lemma block_with_range st idx a b s e l ls :
  currentCaption st = None -> (trim idx =? "") = false ->
  count_char "-" a = 0 -> count_char "-" b = 0 ->
  srtTimeToSeconds (trim a) = Normal s ->
  srtTimeToSeconds (trim b) = Normal e ->
  forallb text_line (l :: ls) = true ->
  parseSrt_loop st (idx :: (a ++ "-->" ++ b) :: l :: ls) =
  Normal (mkParseState (parsedCaptions st)
            (Some (mkCaption (idCounter st) (joined (l :: ls)) false
                     (Some s) (Some e)))
            (idCounter st + 1)).
Proof.
  intros Hc Hidx Ha Hb Hs He Hls. rewrite loop_open by assumption.
  rewrite loop_cons. unfold parseSrt_line at 1.
  rewrite range_not_blank. cbn [currentCaption].
  rewrite includes_arrow_app, (assign_range_app _ a b s e) by assumption.
  cbn [bind].
  erewrite loop_text_lines by (reflexivity || eassumption).
  cbn [parsedCaptions idCounter id text active start end_].
  rewrite fold_add_line_joined; [reflexivity|].
  cbn [forallb] in Hls. apply andb_true_iff in Hls as [Hl _].
  apply text_line_spec in Hl. tauto.
Qed.

Lemma first_text_line l ls :
  forallb text_line (l :: ls) = true -> (trim l =? "") = false.
Proof.
  cbn [forallb]. intros H. apply andb_true_iff in H as [H _].
  apply text_line_spec in H. tauto.
Qed.

(** A block followed by a blank line, from a block boundary. *)
Lemma block_committed st lines blank c l ls :
  parseSrt_loop st lines =
    Normal (mkParseState (parsedCaptions st)
              (Some (mkCaption (idCounter st) (joined (l :: ls)) false
                       (start c) (end_ c)))
              (idCounter st + 1)) ->
  (trim l =? "") = false -> (trim blank =? "") = true ->
  parseSrt_loop st (lines ++ [blank]) =
    Normal (mkParseState
              (parsedCaptions st ++
               [mkCaption (idCounter st) (joined (l :: ls)) false
                  (start c) (end_ c)])
              None (idCounter st + 1)).
Proof.
  intros H Hl Hb. rewrite loop_app, H. cbn [bind parseSrt_loop].
  rewrite line_blank by assumption. cbn [bind idCounter].
  rewrite push_joined by assumption. reflexivity.
Qed.

End Ranges.

(* ================================================================== *)
(** * Caption sync                                                     *)
(* ================================================================== *)

Section Sync.

Lemma leb_nan_l (t : number) : (nan <=? t)%float = false.
Proof. rewrite leb_spec. reflexivity. Qed.

Lemma in_interval_untimed t c : start c = None -> in_interval t c = false.
Proof.
  intros H. unfold in_interval, JS.ge. rewrite H. cbn [to_number].
  rewrite leb_nan_l. reflexivity.
Qed.

Lemma active_mark_active t c : active (mark_active t c) = in_interval t c.
Proof. reflexivity. Qed.

Lemma find_active_visible t cs :
  match find active (map (mark_active t) cs) with
  | Some c => text c
  | None => ""
  end = visible_text t cs.
Proof.
  induction cs as [|c cs IH]; [reflexivity|].
  cbn [map find visible_text]. rewrite active_mark_active.
  destruct (in_interval t c); [reflexivity|assumption].
Qed.

Lemma visible_text_timed t cs :
  visible_text t (filter timed cs) = visible_text t cs.
Proof.
  induction cs as [|c cs IH]; [reflexivity|].
  cbn [filter visible_text]. unfold timed at 1.
  destruct (start c) eqn:E.
  - cbn [visible_text]. rewrite IH. reflexivity.
  - rewrite (in_interval_untimed t c E). assumption.
Qed.

End Sync.

(** C1.  For every component state and every playback position reported by
    the video element, [handleTimeUpdate] sets each caption's [active] flag
    to [currentTime >= start && currentTime <= end] (both ends inclusive,
    each caption on its own) and changes nothing else in the captions; the
    subtitle text becomes the text of the first active caption in sequence
    order, or the empty string.  With the captions A = [0,2] and B = [2,4],
    position 2 shows "A" (both are active) and position 5 shows nothing. *)
Theorem handleTimeUpdate_first_active (v : Video) (s : Component) :
  let t := video_currentTime v in
  let s' := handleTimeUpdate (Some v) s in
  map active (captions s') = map (in_interval t) (captions s)
  /\ (forall c, in_interval t c = true <->
                (to_number (start c) <=? t)%float = true /\
                (t <=? to_number (end_ c))%float = true)
  /\ map (fun c => (id c, text c, start c, end_ c)) (captions s')
     = map (fun c => (id c, text c, start c, end_ c)) (captions s)
  /\ subtitleText s' = visible_text t (captions s)
  /\ subtitleText (handleTimeUpdate (playing_at 2%float) (loaded captions_AB)) = "A"
  /\ map active (captions (handleTimeUpdate (playing_at 2%float) (loaded captions_AB)))
     = [true; true]
  /\ subtitleText (handleTimeUpdate (playing_at 5%float) (loaded captions_AB)) = "".
Proof.
  cbv zeta. cbn [handleTimeUpdate captions subtitleText].
  split; [rewrite map_map; reflexivity|].
  split; [intros c; unfold in_interval, JS.ge, JS.le; apply andb_true_iff|].
  split; [rewrite map_map; reflexivity|].
  split; [apply find_active_visible|].
  repeat split.
Qed.

(** C5 (as the code has it).  The index line is not optional: the first
    non-blank line of a block is always taken as the index line and
    ignored.  A block made of an index line, a [start --> end] line and one
    or more text lines is committed with the converted times and the joined
    text; when the index line is left out, the range line is taken for it,
    so the caption is committed with its text but its [start] and [end]
    are never assigned. *)
Theorem parseSrt_first_line_is_index
  (st : ParseState) (a b : string) (s e : number) (l : string)
  (ls : list string) :
  currentCaption st = None ->
  count_char "-" a = 0 -> count_char "-" b = 0 ->
  srtTimeToSeconds (trim a) = Normal s ->
  srtTimeToSeconds (trim b) = Normal e ->
  forallb text_line (l :: ls) = true ->
  let range := a ++ "-->" ++ b in
  (forall idx blank,
      (trim idx =? "") = false -> (trim blank =? "") = true ->
      parseSrt_loop st (idx :: range :: l :: ls ++ [blank]) =
      Normal (mkParseState
                (parsedCaptions st ++
                 [mkCaption (idCounter st) (joined (l :: ls)) false
                    (Some s) (Some e)])
                None (idCounter st + 1)))
  /\ (forall blank,
      (trim blank =? "") = true ->
      parseSrt_loop st (range :: l :: ls ++ [blank]) =
      Normal (mkParseState
                (parsedCaptions st ++
                 [mkCaption (idCounter st) (joined (l :: ls)) false None None])
                None (idCounter st + 1)))
  /\ (forall src idx,
      (trim idx =? "") = false ->
      split_lines src = idx :: range :: l :: ls ->
      parseSrt src =
      Normal [mkCaption 1 (joined (l :: ls)) false (Some s) (Some e)])
  /\ (forall src,
      split_lines src = range :: l :: ls ->
      parseSrt src = Normal [mkCaption 1 (joined (l :: ls)) false None None]).
Proof.
  intros Hc Ha Hb Hs He Hls range.
  pose proof (first_text_line l ls Hls) as Hl.
  assert (Hr : (trim range =? "") = false) by apply range_not_blank.
  unfold range in *. clear range.
  repeat split.
  - intros idx blank Hidx Hblank.
    apply (block_committed st (idx :: (a ++ "-->" ++ b) :: l :: ls) blank
             (mkCaption 0 "" false (Some s) (Some e))); auto.
    apply block_with_range; assumption.
  - intros blank Hblank.
    apply (block_committed st ((a ++ "-->" ++ b) :: l :: ls) blank
             (mkCaption 0 "" false None None)); auto.
    apply block_without_range; assumption.
  - intros src idx Hidx Hsrc. unfold parseSrt. rewrite Hsrc.
    rewrite (block_with_range parseSrt_init idx a b s e l ls)
      by (assumption || reflexivity).
    cbn [bind parsedCaptions idCounter parseSrt_init].
    rewrite push_joined by assumption. reflexivity.
  - intros src Hsrc. unfold parseSrt. rewrite Hsrc.
    rewrite (block_without_range parseSrt_init (a ++ "-->" ++ b) l ls)
      by (assumption || reflexivity).
    cbn [bind parsedCaptions idCounter parseSrt_init].
    rewrite push_joined by assumption. reflexivity.
Qed.

Lemma parseSrt_first_line_is_index_witness :
  parseSrt ("7" ++ String LF ("00:00:01,000 --> 00:00:02,500"
                              ++ String LF "Hello"))
  = Normal [mkCaption 1 "Hello" false (Some 1%float) (Some 2.5%float)]
  /\ parseSrt ("00:00:01,000 --> 00:00:02,500" ++ String LF "Hello")
     = Normal [mkCaption 1 "Hello" false None None].
Proof.
  pose proof (parseSrt_first_line_is_index parseSrt_init
                "00:00:01,000 " " 00:00:02,500" 1%float 2.5%float
                "Hello" []
                eq_refl eq_refl eq_refl eq_refl eq_refl eq_refl) as H.
  cbv zeta in H. destruct H as (_ & _ & H3 & H4). split.
  - apply (H3 _ "7"); reflexivity.
  - apply H4; reflexivity.
Defined.

(** C5, refuted as stated: without an index line the range line is
    consumed as the index, and the committed caption has no [start] and no
    [end], although both timecodes convert. *)
Lemma parseSrt_range_line_first :
  parseSrt ("00:00:01,000 --> 00:00:02,500" ++ String LF "Hello")
  = Normal [mkCaption 1 "Hello" false None None]
  /\ srtTimeToSeconds "00:00:01,000" = Normal 1%float
  /\ srtTimeToSeconds "00:00:02,500" = Normal 2.5%float.
Proof. repeat split. Qed.

(** C10.  A block none of whose lines contains [-->] and that has at least
    one line after its first is committed with the joined text of these
    lines and with [start] and [end] unassigned.  For a caption without
    [start] the interval test is false at every playback position, so
    [handleTimeUpdate] never marks it active and the subtitle text is the
    one the timed captions alone would give. *)
Theorem untimed_caption_never_active :
  (forall st l0 l ls blank,
      currentCaption st = None ->
      forallb text_line (l0 :: l :: ls) = true ->
      (trim blank =? "") = true ->
      parseSrt_loop st (l0 :: l :: ls ++ [blank]) =
      Normal (mkParseState
                (parsedCaptions st ++
                 [mkCaption (idCounter st) (joined (l :: ls)) false None None])
                None (idCounter st + 1)))
  /\ (forall src l0 l ls,
      split_lines src = l0 :: l :: ls ->
      forallb text_line (l0 :: l :: ls) = true ->
      parseSrt src = Normal [mkCaption 1 (joined (l :: ls)) false None None])
  /\ (forall c t, start c = None -> in_interval t c = false)
  /\ (forall v s,
      let s' := handleTimeUpdate (Some v) s in
      Forall (fun c => start c = None -> active c = false) (captions s')
      /\ subtitleText s' =
         visible_text (video_currentTime v) (filter timed (captions s))).
Proof.
  repeat split.
  - intros st l0 l ls blank Hc Hls Hblank.
    pose proof (first_text_line _ _ Hls) as H0.
    cbn [forallb] in Hls. apply andb_true_iff in Hls as [_ Hls].
    apply (block_committed st (l0 :: l :: ls) blank
             (mkCaption 0 "" false None None)); auto.
    + apply block_without_range; assumption.
    + apply (first_text_line _ _ Hls).
  - intros src l0 l ls Hsrc Hls.
    pose proof (first_text_line _ _ Hls) as H0.
    cbn [forallb] in Hls. apply andb_true_iff in Hls as [_ Hls].
    unfold parseSrt. rewrite Hsrc.
    rewrite (block_without_range parseSrt_init l0 l ls)
      by (assumption || reflexivity).
    cbn [bind parsedCaptions idCounter parseSrt_init].
    rewrite push_joined by apply (first_text_line _ _ Hls). reflexivity.
  - intros c t. apply in_interval_untimed.
  - cbn [handleTimeUpdate captions]. apply Forall_forall.
    intros c' Hin. apply in_map_iff in Hin as (c & <- & _).
    cbn [mark_active start active]. apply in_interval_untimed.
  - cbn [handleTimeUpdate subtitleText].
    rewrite find_active_visible, visible_text_timed. reflexivity.
Qed.

Lemma untimed_caption_never_active_witness :
  parseSrt ("note" ++ String LF "no timing here")
  = Normal [mkCaption 1 "no timing here" false None None]
  /\ in_interval 3%float (mkCaption 1 "no timing here" false None None) = false.
Proof.
  destruct untimed_caption_never_active as (_ & H2 & H3 & _). split.
  - apply (H2 _ "note" "no timing here" []); reflexivity.
  - apply H3. reflexivity.
Defined.

(* ================================================================== *)
(** * Caption ids                                                      *)
(* ================================================================== *)

Section Ids.

Local Open Scope Z_scope.

Lemma sorted_app_l (l1 l2 : list Z) :
  StronglySorted Z.lt (l1 ++ l2) -> StronglySorted Z.lt l1.
Proof.
  induction l1 as [|h l1 IH]; cbn [app]; intros H; [constructor|].
  inversion H as [|? ? Hs Hf]; subst. constructor; [auto|].
  apply Forall_app in Hf. tauto.
Qed.

Lemma sorted_snoc (l : list Z) (n : Z) :
  StronglySorted Z.lt l -> Forall (fun i => i < n) l ->
  StronglySorted Z.lt (l ++ [n]).
Proof.
  induction l as [|h l IH]; cbn [app]; intros Hs Hf.
  - repeat constructor.
  - inversion Hs as [|? ? Hs' Hh]; subst.
    inversion Hf as [|? ? Hn Hf']; subst.
    constructor; [auto|]. apply Forall_app. split; [assumption|].
    repeat constructor. assumption.
Qed.

Lemma sorted_bounded_length (l : list Z) : forall lo hi,
  StronglySorted Z.lt l -> Forall (fun i => lo <= i < hi) l ->
  Z.of_nat (List.length l) <= Z.max 0 (hi - lo).
Proof.
  induction l as [|h t IH]; intros lo hi Hs Hf; cbn [List.length]; [lia|].
  inversion Hs as [|? ? Hs' Hh]; subst.
  inversion Hf as [|? ? Hb Hf']; subst.
  assert (Ht : Forall (fun i => h + 1 <= i < hi) t).
  { rewrite Forall_forall in *. intros i Hi.
    specialize (Hh i Hi). specialize (Hf' i Hi). lia. }
  specialize (IH (h + 1) hi Hs' Ht). lia.
Qed.

Lemma Zseq_S a n : Zseq a (S n) = a :: Zseq (a + 1) n.
Proof.
  unfold Zseq. cbn [seq map]. f_equal; [lia|].
  rewrite <- seq_shift, map_map. apply map_ext. intros k. lia.
Qed.

Lemma sorted_exact (l : list Z) : forall a,
  StronglySorted Z.lt l ->
  Forall (fun i => a <= i < a + Z.of_nat (List.length l)) l ->
  l = Zseq a (List.length l).
Proof.
  induction l as [|h t IH]; intros a Hs Hf; [reflexivity|].
  cbn [List.length] in *. rewrite Zseq_S.
  inversion Hs as [|? ? Hs' Hh]; subst.
  inversion Hf as [|? ? Hb Hf']; subst.
  assert (Ht : Forall (fun i => h + 1 <= i < a + Z.of_nat (S (List.length t))) t).
  { rewrite Forall_forall in *. intros i Hi.
    specialize (Hh i Hi). specialize (Hf' i Hi). lia. }
  pose proof (sorted_bounded_length t _ _ Hs' Ht) as L.
  assert (h = a) by lia. subst h. f_equal.
  apply IH; [assumption|].
  rewrite Forall_forall in *. intros i Hi. specialize (Ht i Hi). lia.
Qed.

Lemma assign_range_id c l c' :
  assign_range c l = Normal c' -> id c' = id c.
Proof.
  unfold assign_range.
  destruct (nth_error _ 0); [|discriminate].
  destruct (nth_error _ 1); [|discriminate].
  destruct (srtTimeToSeconds s); [|discriminate]. cbn [bind].
  destruct (srtTimeToSeconds s0); [|discriminate]. cbn [bind].
  intros [= <-]. reflexivity.
Qed.

Lemma push_current_ids st :
  exists rest, open_ids st = (map id (push_current st) ++ rest)%list.
Proof.
  unfold open_ids, push_current. destruct (currentCaption st) as [c|].
  - destruct (negb (trim (text c) =? "")%string).
    + exists []. rewrite map_app, app_nil_r. reflexivity.
    + eauto.
  - eauto.
Qed.

Lemma ids_wf_prefix (l rest : list Z) n :
  StronglySorted Z.lt (l ++ rest) /\
  Forall (fun i => 1 <= i < n) (l ++ rest) ->
  StronglySorted Z.lt l /\ Forall (fun i => 1 <= i < n) l.
Proof.
  intros [Hs Hf]. split; [eapply sorted_app_l; eassumption|].
  apply Forall_app in Hf. tauto.
Qed.

(** One turn of the loop keeps the ids in order. *)
Lemma line_ids st l st' :
  ids_wf st -> parseSrt_line st l = Normal st' -> ids_wf st'.
Proof.
  unfold ids_wf, parseSrt_line. intros [W1 W].
  destruct (trim l =? "")%string.
  - intros [= <-]. unfold open_ids.
    cbn [parsedCaptions currentCaption idCounter]. rewrite !app_nil_r.
    split; [assumption|].
    destruct (push_current_ids st) as [rest E]. rewrite E in W.
    apply (ids_wf_prefix _ rest). exact W.
  - unfold open_ids in W |- *. destruct (currentCaption st) as [c|].
    + destruct (includes "-->" l).
      * destruct (assign_range c l) as [c'|] eqn:E; [|discriminate].
        cbn [bind]. intros [= <-].
        cbn [parsedCaptions currentCaption idCounter].
        rewrite (assign_range_id _ _ _ E). auto.
      * intros [= <-]. auto.
    + intros [= <-]. cbn [parsedCaptions currentCaption idCounter id].
      rewrite app_nil_r in W. destruct W as [Hs Hf].
      split; [lia|]. split.
      * apply sorted_snoc; [assumption|].
        eapply Forall_impl; [|exact Hf]. cbv beta. intros; lia.
      * apply Forall_app. split.
        -- eapply Forall_impl; [|exact Hf]. cbv beta. intros; lia.
        -- repeat constructor; lia.
Qed.

Lemma loop_ids lines : forall st st',
  ids_wf st -> parseSrt_loop st lines = Normal st' -> ids_wf st'.
Proof.
  induction lines as [|l lines IH]; intros st st' W.
  - intros [= <-]. assumption.
  - cbn [parseSrt_loop]. destruct (parseSrt_line st l) as [st1|] eqn:E;
      [|discriminate].
    cbn [bind]. apply IH. eapply line_ids; eassumption.
Qed.

(** One turn of the loop takes a fresh id exactly when it opens a block. *)
Lemma line_counter st l st' :
  parseSrt_line st l = Normal st' ->
  in_block st' = negb (trim l =? "")%string /\
  idCounter st' =
  idCounter st +
  (if (trim l =? "")%string then 0 else if in_block st then 0 else 1).
Proof.
  unfold parseSrt_line, in_block. destruct (trim l =? "")%string.
  - intros [= <-]. cbn. split; [reflexivity|lia].
  - destruct (currentCaption st) as [c|].
    + destruct (includes "-->" l).
      * destruct (assign_range c l); [|discriminate].
        intros [= <-]. cbn. split; [reflexivity|lia].
      * intros [= <-]. cbn. split; [reflexivity|lia].
    + intros [= <-]. cbn. split; [reflexivity|lia].
Qed.

Lemma loop_counter lines : forall st st',
  parseSrt_loop st lines = Normal st' ->
  idCounter st' = idCounter st + blocks_opened (in_block st) lines.
Proof.
  induction lines as [|l lines IH]; intros st st'.
  - intros [= <-]. cbn. lia.
  - cbn [parseSrt_loop blocks_opened].
    destruct (parseSrt_line st l) as [st1|] eqn:E; [|discriminate].
    cbn [bind]. intros H. apply IH in H.
    apply line_counter in E as [B C]. rewrite H, C, B.
    destruct (trim l =? "")%string; cbn [negb]; lia.
Qed.

Lemma parseSrt_init_wf : ids_wf parseSrt_init.
Proof.
  unfold ids_wf, open_ids. cbn. split; [lia|]. split; constructor.
Qed.

End Ids.

Section BlockOrdinals.

Local Open Scope Z_scope.

Lemma line_groups_cons lines : exists g gs, line_groups lines = g :: gs.
Proof.
  destruct lines as [|l r]; cbn [line_groups]; [eauto|].
  destruct (trim l =? "")%string; [eauto|].
  destruct (line_groups r); eauto.
Qed.

(** A non-blank line makes the text of the open caption non-blank, and it
    stays so. *)
Lemma append_text_not_blank c l :
  (trim l =? "")%string = false ->
  (trim (text (append_text c l)) =? "")%string = false.
Proof.
  intros H. apply not_true_iff_false. rewrite blank_iff.
  apply not_true_iff_false. cbn [append_text text].
  rewrite !all_white_space_app, (trim_not_white l H), !andb_false_r.
  reflexivity.
Qed.

Lemma assign_range_text c l c' :
  assign_range c l = Normal c' -> text c' = text c.
Proof.
  unfold assign_range.
  destruct (nth_error _ 0); [|discriminate].
  destruct (nth_error _ 1); [|discriminate].
  destruct (srtTimeToSeconds s); [|discriminate]. cbn [bind].
  destruct (srtTimeToSeconds s0); [|discriminate]. cbn [bind].
  intros [= <-]. reflexivity.
Qed.

(** The ids still to be committed from a state and the lines left: the
    open caption, when it has or gets text before the next blank line, and
    then the blocks that follow, numbered from the counter. *)
Lemma loop_ordinals lines : forall st st' g gs,
  parseSrt_loop st lines = Normal st' ->
  line_groups lines = g :: gs ->
  map id (push_current st') =
  (map id (parsedCaptions st) ++
   match currentCaption st with
   | Some c =>
       (if negb (trim (text c) =? "")%string || some_text g
        then [id c] else []) ++
       committed_ordinals (idCounter st) (filter nonempty gs)
   | None => committed_ordinals (idCounter st) (filter nonempty (g :: gs))
   end)%list.
Proof.
  induction lines as [|l r IH]; intros [p cur n] st' g gs.
  - intros [= <-] [= <- <-]. unfold push_current.
    cbn [currentCaption parsedCaptions idCounter some_text existsb filter
         nonempty committed_ordinals].
    destruct cur as [c|]; [|rewrite app_nil_r; reflexivity].
    rewrite orb_false_r, app_nil_r.
    destruct (negb (trim (text c) =? "")%string);
      [rewrite map_app|rewrite app_nil_r]; reflexivity.
  - cbn [parseSrt_loop line_groups]. unfold parseSrt_line.
    destruct (line_groups_cons r) as (g' & gs' & G). rewrite G.
    cbn [currentCaption parsedCaptions idCounter].
    destruct (trim l =? "")%string eqn:B.
    + cbn [bind]. intros E [= <- <-]. apply (IH _ _ _ _ E) in G.
      rewrite G. cbn [currentCaption parsedCaptions idCounter].
      unfold push_current. cbn [currentCaption parsedCaptions].
      cbn [some_text existsb].
      destruct cur as [c|]; [|reflexivity].
      rewrite orb_false_r.
      destruct (negb (trim (text c) =? "")%string);
        [rewrite map_app, <- app_assoc|]; reflexivity.
    + intros E [= <- <-]. destruct cur as [c|].
      * destruct (includes "-->" l) eqn:A.
        -- destruct (assign_range c l) as [c'|] eqn:R; [|discriminate].
           cbn [bind] in E. apply (IH _ _ _ _ E) in G. rewrite G.
           cbn [currentCaption parsedCaptions idCounter some_text existsb].
           rewrite (assign_range_id _ _ _ R), (assign_range_text _ _ _ R), A.
           reflexivity.
        -- cbn [bind] in E. apply (IH _ _ _ _ E) in G. rewrite G.
           cbn [currentCaption parsedCaptions idCounter some_text existsb].
           rewrite (append_text_not_blank c l B), A.
           cbn [negb orb]. rewrite orb_true_r. reflexivity.
      * cbn [bind] in E. apply (IH _ _ _ _ E) in G. rewrite G.
        cbn [currentCaption parsedCaptions idCounter text id filter nonempty
             committed_ordinals has_text].
        reflexivity.
Qed.

(** The counter advances once for each block of the lines. *)
Lemma blocks_opened_groups lines : forall b g gs,
  line_groups lines = g :: gs ->
  blocks_opened b lines =
  (if b then 0 else if nonempty g then 1 else 0) +
  Z.of_nat (List.length (filter nonempty gs)).
Proof.
  induction lines as [|l r IH]; intros b g gs.
  - intros [= <- <-]. destruct b; reflexivity.
  - cbn [line_groups blocks_opened].
    destruct (line_groups_cons r) as (g' & gs' & G). rewrite G.
    destruct (trim l =? "")%string.
    + intros [= <- <-]. rewrite (IH false _ _ G).
      cbn [filter nonempty].
      destruct b, (nonempty g'); cbn [List.length]; lia.
    + intros [= <- <-]. rewrite (IH true _ _ G). cbn [nonempty].
      destruct b; cbv beta iota; lia.
Qed.

Lemma blocks_opened_srt_blocks lines :
  blocks_opened false lines = Z.of_nat (List.length (srt_blocks lines)).
Proof.
  unfold srt_blocks.
  destruct (line_groups_cons lines) as (g & gs & G).
  rewrite (blocks_opened_groups _ false _ _ G), G. cbn [filter].
  destruct (nonempty g); cbn [List.length]; lia.
Qed.

End BlockOrdinals.

(** C4 (as the code has it).  Ids are taken from a counter that starts at 1
    and advances when a block is opened, not when it is committed.  So the
    id of a returned caption is the position of its block among all the
    blocks of the file, counted from 1, the dropped blocks included: the ids
    are the positions of the blocks that have text.  They are strictly
    increasing and lie between 1 and the number of blocks; a dropped block
    leaves a gap, and the ids are exactly 1, 2, ..., n when no block was
    dropped (as many captions are returned as there are blocks). *)
Theorem parseSrt_ids (src : string) (caps : list Caption) :
  parseSrt src = Normal caps ->
  let ids := map id caps in
  let blocks := srt_blocks (split_lines src) in
  let opened := blocks_opened false (split_lines src) in
  StronglySorted Z.lt ids
  /\ Forall (fun i => (1 <= i <= opened)%Z) ids
  /\ (Z.of_nat (List.length caps) = opened -> ids = Zseq 1 (List.length caps))
  /\ opened = Z.of_nat (List.length blocks)
  /\ ids = committed_ordinals 1 blocks.
Proof.
  unfold parseSrt.
  destruct (parseSrt_loop parseSrt_init (split_lines src)) as [st|] eqn:E;
    [|discriminate].
  cbn [bind]. intros [= <-]. cbv zeta.
  pose proof (loop_ids _ _ _ parseSrt_init_wf E) as (_ & W).
  pose proof (loop_counter _ _ _ E) as C.
  cbn [in_block parseSrt_init currentCaption idCounter] in C.
  destruct (push_current_ids st) as [rest R]. rewrite R in W.
  apply ids_wf_prefix in W as [Hs Hf].
  assert (Hf' : Forall
            (fun i => (1 <= i <= blocks_opened false (split_lines src))%Z)
            (map id (push_current st))).
  { eapply Forall_impl; [|exact Hf]. cbv beta. intros; lia. }
  split; [assumption|]. split; [assumption|]. split; [|split].
  - intros L. rewrite <- (length_map id). apply sorted_exact; [assumption|].
    rewrite length_map. eapply Forall_impl; [|exact Hf]. cbv beta. intros; lia.
  - apply blocks_opened_srt_blocks.
  - destruct (line_groups_cons (split_lines src)) as (g & gs & G).
    rewrite (loop_ordinals _ _ _ _ _ E G). unfold srt_blocks. rewrite G.
    reflexivity.
Qed.

Lemma parseSrt_ids_witness :
  map id [mkCaption 2 "Hi" false (Some 3%float) (Some 4%float)]
  = committed_ordinals 1 (srt_blocks (split_lines srt_empty_first_block))
  /\ committed_ordinals 1 (srt_blocks (split_lines srt_empty_first_block))
     = [2%Z]
  /\ map id [ mkCaption 1 "Hello" false (Some 1%float) (Some 2%float);
              mkCaption 2 "Hi" false (Some 3%float) (Some 4%float) ]
     = Zseq 1 2.
Proof.
  split; [|split; [reflexivity|]].
  - refine (proj2 (proj2 (proj2 (proj2
      (parseSrt_ids srt_empty_first_block _ _))))). reflexivity.
  - refine (proj1 (proj2 (proj2 (parseSrt_ids srt_two_blocks _ _))) _);
      reflexivity.
Defined.

(** C4, refuted as stated: the first block has no text and is dropped, but
    it has used id 1, so the only caption returned has id 2. *)
Lemma parseSrt_dropped_block_leaves_gap :
  parseSrt srt_empty_first_block
  = Normal [mkCaption 2 "Hi" false (Some 3%float) (Some 4%float)]
  /\ Zseq 1 1 = [1%Z].
Proof. split; reflexivity. Qed.

(* ================================================================== *)
(** * The overlay                                                      *)
(* ================================================================== *)

Section Overlay.

Local Open Scope float_scope.

Lemma div_zero (d : number) :
  d / 0 = if 0 <? d then infinity else if d <? 0 then neg_infinity else nan.
Proof.
  rewrite <- (SF2Prim_Prim2SF (d / 0)), div_spec, !ltb_spec.
  change (Prim2SF 0) with (S754_zero false).
  destruct (Prim2SF d) as [s|s| |s m e]; try destruct s; reflexivity.
Qed.

Lemma clamp_div_zero_x (d : number) :
  clamp (d / 0 * 100) =
  if 0 <? d then 90 else if d <? 0 then 10 else nan.
Proof.
  rewrite div_zero. destruct (0 <? d); [reflexivity|].
  destruct (d <? 0); reflexivity.
Qed.

Lemma clamp_div_zero_y (d : number) :
  clamp (100 - d / 0 * 100) =
  if 0 <? d then 10 else if d <? 0 then 90 else nan.
Proof.
  rewrite div_zero. destruct (0 <? d); [reflexivity|].
  destruct (d <? 0); reflexivity.
Qed.


Lemma handleMouseMove_dragging v rect e s :
  isDragging s = true -> video_parentElement v = Some rect ->
  handleMouseMove (Some v) e s =
  mkComponent (currentTime s) (duration s)
    (mkPoint (clamp (percent_x e s rect)) (clamp (percent_y e s rect)))
    (subtitleText s) (isDragging s) (dragStart s) (subtitleSize s)
    (isResizing s) (captions s).
Proof.
  intros Hd Hv. unfold handleMouseMove. rewrite Hd, Hv. reflexivity.
Qed.

(** A move changes nothing but the anchor. *)
Lemma handleMouseMove_frame v e s :
  let s' := handleMouseMove v e s in
  isDragging s' = isDragging s /\ isResizing s' = isResizing s /\
  dragStart s' = dragStart s /\ subtitleSize s' = subtitleSize s.
Proof.
  cbv zeta. unfold handleMouseMove.
  destruct (negb (isDragging s) && negb (isResizing s)); [auto|].
  destruct v as [v|]; [|auto].
  destruct (video_parentElement v); [|auto].
  destruct (isDragging s) eqn:E; cbn; auto.
Qed.



Lemma dispatch_size s ev : subtitleSize (dispatch s ev) = subtitleSize s.
Proof.
  destruct ev as [e|v e|]; cbn [dispatch]; try reflexivity.
  apply handleMouseMove_frame.
Qed.

Lemma run_size evs : forall s, subtitleSize (run s evs) = subtitleSize s.
Proof.
  induction evs as [|ev evs IH]; intros s; [reflexivity|].
  unfold run. cbn [fold_left]. fold (run (dispatch s ev) evs).
  rewrite IH. apply dispatch_size.
Qed.

End Overlay.

(* ================================================================== *)
(** * Rounding never produces NaN                                      *)
(* ================================================================== *)

Section Rounding.

Local Open Scope Z_scope.

Lemma shr_1_nonneg mrs : 0 <= shr_m mrs -> 0 <= shr_m (shr_1 mrs).
Proof.
  destruct mrs as [m r s]. cbn [shr_m shr_1].
  destruct m as [|[p|p|]|[p|p|]]; cbn [shr_m]; lia.
Qed.

Lemma iter_shr_1_nonneg p : forall mrs,
  0 <= shr_m mrs -> 0 <= shr_m (iter_pos shr_1 p mrs).
Proof.
  induction p as [p IH|p IH|]; intros mrs H; cbn [iter_pos].
  - apply IH, IH, shr_1_nonneg, H.
  - apply IH, IH, H.
  - apply shr_1_nonneg, H.
Qed.

Lemma shr_fexp_nonneg pr em m e l :
  0 <= m -> 0 <= shr_m (fst (shr_fexp pr em m e l)).
Proof.
  intros H. unfold shr_fexp, shr.
  assert (H0 : 0 <= shr_m (shr_record_of_loc m l)).
  { destruct l as [|[]]; exact H. }
  destruct (fexp pr em (Zdigits2 m + e) - e); cbn [fst]; auto.
  apply iter_shr_1_nonneg, H0.
Qed.

Lemma round_nearest_even_nonneg m l : 0 <= m -> 0 <= round_nearest_even m l.
Proof.
  intros H. unfold round_nearest_even.
  destruct l as [|[]]; try destruct (Z.even m); lia.
Qed.



Lemma SFdiv_core_nonneg pr em m1 e1 m2 e2 :
  0 <= fst (fst (SFdiv_core_binary pr em (Zpos m1) e1 (Zpos m2) e2)).
Proof.
  unfold SFdiv_core_binary.
  set (s := e1 - e2 - _).
  set (m' := match s with Z0 => Zpos m1 | Zpos _ => Z.shiftl (Zpos m1) s | Zneg _ => 0 end).
  assert (Hm : 0 <= m').
  { unfold m'. destruct s; try lia. apply Z.shiftl_nonneg. lia. }
  pose proof (Z_div_mod m' (Zpos m2) ltac:(lia)) as D.
  destruct (Z.div_eucl m' (Zpos m2)) as [q r]. cbn [fst].
  destruct D as [D1 D2]. nia.
Qed.

End Rounding.

Section NotNaN.

Local Open Scope float_scope.



Lemma is_nan_false_spec a : is_nan a = false <-> Prim2SF a <> S754_nan.
Proof.
  rewrite <- is_nan_spec. destruct (is_nan a); split; congruence.
Qed.












End NotNaN.

(* ================================================================== *)
(** * Timecodes of the right shape convert to numbers                  *)
(* ================================================================== *)

Section NonNeg.

Local Open Scope Z_scope.

Lemma binary_round_aux_nonneg pr em mx ex lx :
  0 <= mx -> sf_nonneg (binary_round_aux pr em false mx ex lx) = true.
Proof.
  intros H. unfold binary_round_aux.
  pose proof (shr_fexp_nonneg pr em mx ex lx H) as H1.
  destruct (shr_fexp pr em mx ex lx) as [mrs' e']. cbn [fst] in H1.
  pose proof (shr_fexp_nonneg pr em _ e' loc_Exact
                (round_nearest_even_nonneg _ (loc_of_shr_record mrs') H1)) as H2.
  destruct (shr_fexp pr em _ e' loc_Exact) as [mrs'' e'']. cbn [fst] in H2.
  destruct (shr_m mrs''); [reflexivity| |lia].
  destruct (e'' <=? em - pr); reflexivity.
Qed.

Lemma binary_round_nonneg pr em m e :
  sf_nonneg (binary_round pr em false m e) = true.
Proof.
  unfold binary_round. destruct (shl_align _ _ _).
  apply binary_round_aux_nonneg. lia.
Qed.

Lemma binary_normalize_nonneg pr em z e :
  0 <= z -> sf_nonneg (binary_normalize pr em z e false) = true.
Proof.
  intros H. unfold binary_normalize.
  destruct z; [reflexivity|apply binary_round_nonneg|lia].
Qed.

Lemma SF2Prim_nonneg a :
  sf_nonneg a = true -> sf_nonneg (Prim2SF (SF2Prim a)) = true.
Proof.
  destruct a as [[]|[]| |[] m e]; try discriminate; intros _;
    try reflexivity.
  unfold SF2Prim. rewrite Z_ldexp_spec, of_uint63_spec.
  pose proof (Uint63.to_Z_bounded (Uint63.of_Z (Z.pos m))) as B.
  pose proof (binary_normalize_nonneg prec emax _ 0 (proj1 B)) as N.
  destruct (binary_normalize prec emax _ 0 false)
    as [[]|[]| |[] m' e']; try discriminate; try reflexivity.
  cbn [SFldexp]. apply binary_round_nonneg.
Qed.

End NonNeg.

Section NonNegOps.

Local Open Scope float_scope.

Lemma of_Z_nonneg z : (0 <= z)%Z -> nonneg (of_Z z) = true.
Proof.
  intros H. unfold nonneg, JS.of_Z.
  apply SF2Prim_nonneg, binary_normalize_nonneg, H.
Qed.

Lemma nonneg_add a b :
  nonneg a = true -> nonneg b = true -> nonneg (a + b) = true.
Proof.
  unfold nonneg. rewrite add_spec. unfold SF64add, SFadd.
  destruct (Prim2SF a) as [[]|[]| |[] ma ea]; try discriminate;
    destruct (Prim2SF b) as [[]|[]| |[] mb eb]; try discriminate;
    intros _ _; try reflexivity.
  apply binary_normalize_nonneg. cbn [cond_Zopp]. lia.
Qed.

Lemma nonneg_mul a b :
  nonneg a = true -> sf_nonneg (Prim2SF b) = true ->
  (exists m e, Prim2SF b = S754_finite false m e) ->
  nonneg (a * b) = true.
Proof.
  unfold nonneg. rewrite mul_spec. unfold SF64mul, SFmul.
  intros Ha _ (m & e & ->).
  destruct (Prim2SF a) as [[]|[]| |[] ma ea]; try discriminate;
    try reflexivity.
  cbn [xorb]. apply binary_round_aux_nonneg. lia.
Qed.

Lemma nonneg_div a b :
  nonneg a = true ->
  (exists m e, Prim2SF b = S754_finite false m e) ->
  nonneg (a / b) = true.
Proof.
  unfold nonneg. rewrite div_spec. unfold SF64div, SFdiv.
  intros Ha (m & e & ->).
  destruct (Prim2SF a) as [[]|[]| |[] ma ea]; try discriminate;
    try reflexivity.
  cbn [xorb].
  pose proof (SFdiv_core_nonneg prec emax ma ea m e) as H.
  destruct (SFdiv_core_binary prec emax (Z.pos ma) ea (Z.pos m) e) as [[q e'] l].
  cbn [fst] in H. apply binary_round_aux_nonneg. exact H.
Qed.

Lemma nonneg_numeric a :
  nonneg a = true -> is_nan a = false /\ (0 <=? a) = true.
Proof.
  unfold nonneg. intros H. split.
  - apply is_nan_false_spec. intros E. rewrite E in H. discriminate.
  - rewrite leb_spec. change (Prim2SF 0) with (S754_zero false).
    destruct (Prim2SF a) as [[]|[]| |[] m e]; try discriminate; reflexivity.
Qed.

Lemma numeral_Z_nonneg d : all_digits d = true -> (0 <= numeral_Z d)%Z.
Proof.
  induction d as [|c d IH]; cbn [all_digits numeral_Z]; [lia|].
  intros H. apply andb_true_iff in H as [Hc Hd]. specialize (IH Hd).
  assert (0 <= digit_value c)%Z.
  { unfold is_digit in Hc. apply andb_true_iff in Hc as [H1 _].
    apply Nat.leb_le in H1. unfold digit_value. lia. }
  assert (0 <= 10 ^ Z.of_nat (String.length d))%Z by (apply Z.pow_nonneg; lia).
  nia.
Qed.

Lemma timecode_value_nonneg H M S m :
  all_digits H = true -> all_digits M = true ->
  all_digits S = true -> all_digits m = true ->
  nonneg (numeral_value H * 3600 + numeral_value M * 60 +
          numeral_value S + numeral_value m / 1000) = true.
Proof.
  intros dH dM dS dm. unfold numeral_value.
  repeat apply nonneg_add.
  - apply nonneg_mul; [apply of_Z_nonneg, numeral_Z_nonneg, dH|reflexivity|].
    eexists _, _. reflexivity.
  - apply nonneg_mul; [apply of_Z_nonneg, numeral_Z_nonneg, dM|reflexivity|].
    eexists _, _. reflexivity.
  - apply of_Z_nonneg, numeral_Z_nonneg, dS.
  - apply nonneg_div; [apply of_Z_nonneg, numeral_Z_nonneg, dm|].
    eexists _, _. reflexivity.
Qed.

End NonNegOps.

(** C6 (as the code has it).  The converter throws, and then a TypeError,
    exactly when the input has fewer than two colons.  A string of the
    shape [H:M:S,m] never throws and converts to a number: the result is
    not NaN and not negative.  A missing comma is not a failure: with two
    colons or more and no comma the converter returns NaN. *)
Theorem srtTimeToSeconds_failure (s : string) :
  (throws (srtTimeToSeconds s) = true <-> count_char ":" s < 2)
  /\ (timecode_shape s = true ->
      exists v, srtTimeToSeconds s = Normal v /\
                is_nan v = false /\ (0 <=? v)%float = true)
  /\ (2 <= count_char ":" s -> count_char "," s = 0 ->
      srtTimeToSeconds s = Normal nan).
Proof.
  split; [apply srtTimeToSeconds_throws_iff|].
  split; [|apply srtTimeToSeconds_no_comma].
  intros Hs. apply timecode_shape_iff in Hs
    as (H & M & S & m & HH & HM & HS & Hm & ->).
  eexists. split; [apply srtTimeToSeconds_timecode; assumption|].
  apply nonneg_numeric, timecode_value_nonneg;
    apply is_numeral_all_digits; assumption.
Qed.

Lemma srtTimeToSeconds_failure_witness :
  (exists v, srtTimeToSeconds "00:01:02,500" = Normal v /\
             is_nan v = false /\ (0 <=? v)%float = true)
  /\ srtTimeToSeconds "00:01:02" = Normal nan.
Proof.
  split.
  - apply (proj1 (proj2 (srtTimeToSeconds_failure "00:01:02,500"))).
    reflexivity.
  - apply (proj2 (proj2 (srtTimeToSeconds_failure "00:01:02")));
      simpl; lia.
Defined.

(** C6, refuted as stated: "00:01:02" lacks the comma, so it does not have
    the shape [H:M:S,m], and yet the converter does not fail on it. *)
Lemma srtTimeToSeconds_missing_comma_returns :
  timecode_shape "00:01:02" = false
  /\ throws (srtTimeToSeconds "00:01:02") = false
  /\ srtTimeToSeconds "00:01:02" = Normal nan.
Proof. repeat split. Qed.




(** C8 (as the code has it).  [handleMouseMove] does not guard the division:
    in a dragging session with a container of width 0 the anchor's x is set
    to 90, 10 or NaN as the pointer is right of, left of, or at
    [dragStart.x] (NaN also when that offset is NaN); with height 0 its y is
    set to 10, 90 or NaN likewise.  The anchor is overwritten in every
    case. *)
Theorem drag_zero_container_unguarded
  (v : Video) (rect : DOMRect) (e : MouseEvent) (s : Component) :
  isDragging s = true -> video_parentElement v = Some rect ->
  let dx := (clientX e - x (dragStart s))%float in
  let dy := (clientY e - y (dragStart s))%float in
  let p := subtitlePosition (handleMouseMove (Some v) e s) in
  (rect_width rect = 0%float ->
   x p = if (0 <? dx)%float then 90%float
         else if (dx <? 0)%float then 10%float else nan)
  /\ (rect_height rect = 0%float ->
      y p = if (0 <? dy)%float then 10%float
            else if (dy <? 0)%float then 90%float else nan).
Proof.
  intros Hd Hv. cbv zeta.
  rewrite (handleMouseMove_dragging v rect e s Hd Hv).
  cbn [subtitlePosition x y]. unfold percent_x, percent_y.
  split; intros ->; [apply clamp_div_zero_x|apply clamp_div_zero_y].
Qed.

Lemma drag_zero_container_unguarded_witness :
  x (subtitlePosition
       (run initial [press_body 200 680 400 800; move_to 260 700 0 0]))
  = 90%float
  /\ y (subtitlePosition
          (run initial [press_body 200 680 400 800; move_to 260 700 0 0]))
     = 10%float.
Proof.
  pose proof (drag_zero_container_unguarded
                (mkVideo 0 0 (Some (mkRect 0 0))) (mkRect 0 0)
                (mkMouseEvent 260 700 false 0 0)
                (run initial [press_body 200 680 400 800])
                eq_refl eq_refl) as H.
  cbv zeta in H. destruct H as [Hx Hy].
  split; [exact (Hx eq_refl)|exact (Hy eq_refl)].
Defined.

(** C8, refuted as stated: with a 0 x 0 container the move is not skipped;
    the anchor (50, 15) becomes (NaN, 10). *)
Lemma drag_zero_container_overwrites_anchor :
  subtitlePosition (run initial [press_body 200 680 400 800]) = mkPoint 50 15
  /\ subtitlePosition
       (run initial [press_body 200 680 400 800; move_to 0 700 0 0])
     = mkPoint nan 10
  /\ is_nan (x (subtitlePosition
                  (run initial [press_body 200 680 400 800; move_to 0 700 0 0])))
     = true.
Proof. repeat split. Qed.

Section Sessions.

Lemma handleMouseMove_not_dragging v e s :
  isDragging s = false -> handleMouseMove v e s = s.
Proof.
  intros H. unfold handleMouseMove. rewrite H.
  destruct (negb false && negb (isResizing s)); [reflexivity|].
  destruct v as [v|]; [|reflexivity].
  destruct (video_parentElement v); reflexivity.
Qed.

End Sessions.

(** C7 (as the code has it).  No resize logic exists: no move changes the
    overlay size, in a resizing session or in any other state.  A move in a
    resizing session leaves the whole component as it is when no dragging
    session is active at the same time; when one is, the move repositions
    the anchor as in any dragging session and changes nothing else.  No
    pointer event ever changes the overlay size: in every state reachable
    from the initial one the size is the initial 300 x 60, whose dimensions
    are positive. *)
Theorem resize_moves_keep_size :
  (forall v e s, subtitleSize (handleMouseMove v e s) = subtitleSize s)
  /\ (forall v e s, isDragging s = false -> handleMouseMove v e s = s)
  /\ (forall v rect e s,
      isResizing s = true -> isDragging s = true ->
      video_parentElement v = Some rect ->
      handleMouseMove (Some v) e s =
      mkComponent (currentTime s) (duration s)
        (mkPoint (clamp (percent_x e s rect)) (clamp (percent_y e s rect)))
        (subtitleText s) true (dragStart s) (subtitleSize s) true (captions s))
  /\ (forall s evs, subtitleSize (run s evs) = subtitleSize s)
  /\ (forall evs, subtitleSize (run initial evs) = mkSize 300 60)
  /\ (0 <? 300)%float = true /\ (0 <? 60)%float = true.
Proof.
  split; [intros v e s; apply (dispatch_size s (MouseMove v e))|].
  split; [exact handleMouseMove_not_dragging|].
  split; [intros v rect e s Hr Hd Hv;
          rewrite (handleMouseMove_dragging v rect e s Hd Hv), Hr, Hd;
          reflexivity|].
  split; [intros s evs; apply run_size|].
  split; [intros evs; apply run_size|].
  split; reflexivity.
Qed.

Lemma resize_moves_keep_size_witness :
  isResizing (run initial [press_handle 340 700 300 60]) = true
  /\ run initial [press_handle 340 700 300 60; move_to 400 760 400 800]
     = run initial [press_handle 340 700 300 60]
  /\ subtitlePosition
       (run initial [ press_body 200 680 400 800; press_handle 200 680 400 800;
                      move_to 300 600 400 800 ])
     = mkPoint 75 25.
Proof.
  destruct resize_moves_keep_size as (_ & Hidle & Hboth & _).
  split; [reflexivity|]. split.
  - apply Hidle. reflexivity.
  - unfold run, move_to. cbn [fold_left dispatch].
    rewrite (Hboth _ (mkRect 400 800)) by reflexivity. reflexivity.
Defined.

(** C7, refuted as stated: in a resizing session a move of the pointer by
    (60, 60) adjusts nothing; the size is still 300 x 60. *)
Lemma resize_move_adjusts_nothing :
  isResizing (run initial [press_handle 340 700 300 60]) = true
  /\ isDragging (run initial [press_handle 340 700 300 60]) = false
  /\ subtitleSize
       (run initial [press_handle 340 700 300 60; move_to 400 760 400 800])
     = subtitleSize (run initial [press_handle 340 700 300 60])
  /\ subtitleSize
       (run initial [press_handle 340 700 300 60; move_to 400 760 400 800])
     = mkSize 300 60.
Proof. repeat split. Qed.

(** C9 (as the code has it).  A press is never ignored: it sets the flag of
    its target (resizing for a resize handle, dragging otherwise), keeps the
    other flag, and captures [dragStart] anew.  From the idle state exactly
    one of the two flags is set; moves change neither flag; a release
    clears both.  Nothing makes the two sessions exclusive. *)
Theorem press_is_never_ignored :
  (forall e s,
      isResizing (handleSubtitleMouseDown e s)
        = (target_is_resize_handle e || isResizing s)
      /\ isDragging (handleSubtitleMouseDown e s)
         = (negb (target_is_resize_handle e) || isDragging s)
      /\ dragStart (handleSubtitleMouseDown e s) =
         mkPoint
           (clientX e -
              x (subtitlePosition s) / 100 * target_parent_offsetWidth e)
           (clientY e -
              (100 - y (subtitlePosition s)) / 100 *
              target_parent_offsetHeight e))
  /\ (forall e s,
      isDragging s = false -> isResizing s = false ->
      xorb (isDragging (handleSubtitleMouseDown e s))
           (isResizing (handleSubtitleMouseDown e s)) = true)
  /\ (forall v e s,
      isDragging (handleMouseMove v e s) = isDragging s
      /\ isResizing (handleMouseMove v e s) = isResizing s)
  /\ (forall s,
      isDragging (handleMouseUp s) = false
      /\ isResizing (handleMouseUp s) = false).
Proof.
  split.
  { intros e s. cbn [handleSubtitleMouseDown isResizing isDragging dragStart].
    destruct (target_is_resize_handle e); repeat split. }
  split.
  { intros e s Hd Hr.
    cbn [handleSubtitleMouseDown isResizing isDragging].
    rewrite Hd, Hr. destruct (target_is_resize_handle e); reflexivity. }
  split.
  { intros v e s. pose proof (handleMouseMove_frame v e s) as H.
    cbv zeta in H. tauto. }
  intros s. split; reflexivity.
Qed.

Lemma press_is_never_ignored_witness :
  xorb (isDragging (run initial [press_body 200 680 400 800]))
       (isResizing (run initial [press_body 200 680 400 800])) = true.
Proof.
  apply (proj1 (proj2 press_is_never_ignored)); reflexivity.
Defined.

(** C9, refuted as stated: a press on the body followed, before any
    release, by a press on a resize handle leaves both sessions active, and
    the second press has replaced the captured [dragStart]. *)
Lemma press_during_session_takes_effect :
  isDragging
    (run initial [press_body 200 680 400 800; press_handle 340 700 300 60])
  = true
  /\ isResizing
       (run initial [press_body 200 680 400 800; press_handle 340 700 300 60])
     = true
  /\ dragStart (run initial [press_body 200 680 400 800]) = mkPoint 0 0
  /\ dragStart
       (run initial [press_body 200 680 400 800; press_handle 340 700 300 60])
     = mkPoint 190 649.
Proof. repeat split. Qed.

(* ================================================================== *)
(** * The order of numbers, and the clamp                              *)
(* ================================================================== *)

Section Keys.

Local Open Scope Z_scope.

Lemma SFcompare_finite s1 m1 e1 s2 m2 e2 :
  SFcompare (S754_finite s1 m1 e1) (S754_finite s2 m2 e2) =
  Some (if s1
        then if s2
             then match e1 ?= e2 with
                  | Eq => CompOpp (m1 ?= m2)%positive
                  | Lt => Gt
                  | Gt => Lt
                  end
             else Lt
        else if s2 then Gt
             else match e1 ?= e2 with
                  | Eq => (m1 ?= m2)%positive
                  | Lt => Lt
                  | Gt => Gt
                  end).
Proof. reflexivity. Qed.

Lemma SFleb_key x y :
  SFleb x y = true <->
  x <> S754_nan /\ y <> S754_nan /\ lex_le (key x) (key y).
Proof.
  unfold SFleb.
  destruct x as [s1|s1| |s1 m1 e1]; destruct y as [s2|s2| |s2 m2 e2];
    try rewrite SFcompare_finite; cbn [SFcompare key lex_le];
    try (destruct s1); try (destruct s2); cbn [key lex_le];
    try (split; [intros H; try discriminate; repeat split; try discriminate; lia
                |intros (H1 & H2 & H3); try congruence; try reflexivity; lia]).
  - destruct (Z.compare_spec e1 e2); destruct (Pos.compare_spec m1 m2); cbn;
      split; try discriminate; try (intros _; repeat split; try discriminate; lia);
      intros (_ & _ & H'); lia.
  - destruct (Z.compare_spec e1 e2); destruct (Pos.compare_spec m1 m2); cbn;
      split; try discriminate; try (intros _; repeat split; try discriminate; lia);
      intros (_ & _ & H'); lia.
Qed.

Lemma SFltb_key x y :
  SFltb x y = true <->
  x <> S754_nan /\ y <> S754_nan /\ lex_lt (key x) (key y).
Proof.
  unfold SFltb.
  destruct x as [s1|s1| |s1 m1 e1]; destruct y as [s2|s2| |s2 m2 e2];
    try rewrite SFcompare_finite; cbn [SFcompare key lex_lt];
    try (destruct s1); try (destruct s2); cbn [key lex_lt];
    try (split; [intros H; try discriminate; repeat split; try discriminate; lia
                |intros (H1 & H2 & H3); try congruence; try reflexivity; lia]).
  - destruct (Z.compare_spec e1 e2); destruct (Pos.compare_spec m1 m2); cbn;
      split; try discriminate; try (intros _; repeat split; try discriminate; lia);
      intros (_ & _ & H'); lia.
  - destruct (Z.compare_spec e1 e2); destruct (Pos.compare_spec m1 m2); cbn;
      split; try discriminate; try (intros _; repeat split; try discriminate; lia);
      intros (_ & _ & H'); lia.
Qed.

End Keys.

Section Order.

Local Open Scope float_scope.

Lemma leb_key a b :
  (a <=? b) = true <-> numeric a /\ numeric b /\ lex_le (nkey a) (nkey b).
Proof. rewrite leb_spec. apply SFleb_key. Qed.

Lemma ltb_key a b :
  (a <? b) = true <-> numeric a /\ numeric b /\ lex_lt (nkey a) (nkey b).
Proof. rewrite ltb_spec. apply SFltb_key. Qed.

Lemma numeric_is_nan a : numeric a <-> is_nan a = false.
Proof. symmetry. apply is_nan_false_spec. Qed.

Lemma leb_trans a b c :
  (a <=? b) = true -> (b <=? c) = true -> (a <=? c) = true.
Proof.
  rewrite !leb_key. unfold nkey.
  destruct (key (Prim2SF a)) as [[a1 a2] a3].
  destruct (key (Prim2SF b)) as [[b1 b2] b3].
  destruct (key (Prim2SF c)) as [[c1 c2] c3].
  cbn [lex_le]. intros (? & ? & ?) (? & ? & ?). repeat split; auto. lia.
Qed.


Lemma ltb_not_leb a b : (a <? b) = true -> (b <=? a) = false.
Proof.
  intros H. apply not_true_iff_false. rewrite leb_key.
  apply ltb_key in H. unfold nkey in *.
  destruct (key (Prim2SF a)) as [[a1 a2] a3].
  destruct (key (Prim2SF b)) as [[b1 b2] b3].
  cbn [lex_le lex_lt] in *. intros (_ & _ & H'). destruct H as (_ & _ & H). lia.
Qed.

Lemma leb_not_ltb a b : (a <=? b) = true -> (b <? a) = false.
Proof.
  intros H. apply not_true_iff_false. rewrite ltb_key.
  apply leb_key in H. unfold nkey in *.
  destruct (key (Prim2SF a)) as [[a1 a2] a3].
  destruct (key (Prim2SF b)) as [[b1 b2] b3].
  cbn [lex_le lex_lt] in *. intros (_ & _ & H'). destruct H as (_ & _ & H). lia.
Qed.

End Order.

Section Clamp.

Local Open Scope float_scope.

Lemma leb_tie a b :
  (a <=? b) = true -> (a <? b) = false -> nkey a = nkey b.
Proof.
  intros H L. apply leb_key in H as (Ha & Hb & H).
  assert (N : ~ lex_lt (nkey a) (nkey b)).
  { intros N. rewrite (proj2 (ltb_key a b)) in L by auto. discriminate. }
  unfold nkey in *.
  destruct (key (Prim2SF a)) as [[a1 a2] a3].
  destruct (key (Prim2SF b)) as [[b1 b2] b3].
  cbn [lex_le lex_lt] in *.
  assert (a1 = b1 /\ a2 = b2 /\ a3 = b3)%Z as (-> & -> & ->) by lia.
  reflexivity.
Qed.

Lemma key_positive_finite x m e :
  x <> S754_nan -> key x = (1, e, Zpos m)%Z -> x = S754_finite false m e.
Proof.
  destruct x as [s|[]| |[] m' e']; cbn; intros H E; try congruence.
Qed.

Lemma clamp_below v : (v <? 10) = true -> clamp v = 10.
Proof.
  intros H. pose proof (proj1 (ltb_key _ _) H) as (Hv & _ & _).
  apply numeric_is_nan in Hv.
  assert (H90 : (v <? 90) = true).
  { apply ltb_key in H as (? & ? & H). apply ltb_key. unfold nkey in *.
    change (Prim2SF 10) with (S754_finite false 5629499534213120 (-49)) in H.
    change (Prim2SF 90) with (S754_finite false 6333186975989760 (-46)).
    destruct (key (Prim2SF v)) as [[a1 a2] a3]. cbn in *.
    repeat split; try discriminate; auto. lia. }
  unfold clamp, Math_min. rewrite Hv. change (is_nan 90) with false.
  cbn [orb]. rewrite (leb_not_ltb v 90 (ltb_leb _ _ H90)), H90.
  unfold Math_max. rewrite Hv. change (is_nan 10) with false. cbn [orb].
  rewrite (leb_not_ltb v 10 (ltb_leb _ _ H)), H. reflexivity.
Qed.

Lemma clamp_above v : (90 <? v) = true -> clamp v = 90.
Proof.
  intros H. pose proof (proj1 (ltb_key _ _) H) as (_ & Hv & _).
  apply numeric_is_nan in Hv.
  unfold clamp, Math_min. rewrite Hv. change (is_nan 90) with false.
  cbn [orb]. rewrite H. reflexivity.
Qed.

Lemma clamp_inside v :
  (10 <=? v) = true -> (v <=? 90) = true -> clamp v = v.
Proof.
  intros L U. pose proof (proj1 (leb_key _ _) L) as (_ & Hv & _).
  pose proof Hv as Hn. apply numeric_is_nan in Hn.
  unfold clamp, Math_min. rewrite Hn. change (is_nan 90) with false.
  cbn [orb]. rewrite (leb_not_ltb v 90 U).
  match goal with
  | |- Math_max 10 ?w = v =>
      replace w with v by (destruct (v <? 90); reflexivity)
  end.
  unfold Math_max. rewrite Hn. change (is_nan 10) with false.
  cbn [orb]. destruct (10 <? v) eqn:L'; [reflexivity|].
  rewrite (leb_not_ltb 10 v L). change (get_sign 10) with false. cbv iota.
  pose proof (leb_tie 10 v L L') as K. unfold nkey in K.
  change (Prim2SF 10) with (S754_finite false 5629499534213120 (-49)) in K.
  cbn [key] in K. symmetry in K.
  apply key_positive_finite in K; [|exact Hv].
  apply Prim2SF_inj. rewrite K. reflexivity.
Qed.

Lemma clamp_idempotent v : clamp (clamp v) = clamp v.
Proof.
  destruct (is_nan v) eqn:N.
  - rewrite (clamp_nan v N). reflexivity.
  - destruct (clamp_bounds v N). apply clamp_inside; assumption.
Qed.

End Clamp.

(* ================================================================== *)
(** * Further properties of the overlay and of caption sync            *)
(* ================================================================== *)

Section Moves.

Lemma handleMouseMove_last v rect e v' e' s :
  video_parentElement v = Some rect ->
  handleMouseMove (Some v) e (handleMouseMove v' e' s) =
  handleMouseMove (Some v) e s.
Proof.
  intros Hv. destruct (isDragging s) eqn:D.
  - rewrite (handleMouseMove_dragging v rect e s D Hv).
    destruct (handleMouseMove_frame v' e' s) as (F1 & F2 & F3 & F4).
    rewrite (handleMouseMove_dragging v rect e _ (eq_trans F1 D) Hv).
    unfold percent_x, percent_y. rewrite F1, F2, F3, F4.
    unfold handleMouseMove. rewrite D.
    destruct (negb true && negb (isResizing s)); [reflexivity|].
    destruct v' as [v'|]; [|reflexivity].
    destruct (video_parentElement v'); reflexivity.
  - rewrite (handleMouseMove_not_dragging v' e' s D). reflexivity.
Qed.

Lemma handleMouseMove_unbound e s : handleMouseMove None e s = s.
Proof.
  unfold handleMouseMove.
  destruct (negb (isDragging s) && negb (isResizing s)); reflexivity.
Qed.

Lemma handleMouseMove_no_container w e s :
  video_parentElement w = None -> handleMouseMove (Some w) e s = s.
Proof.
  intros H. unfold handleMouseMove. rewrite H.
  destruct (negb (isDragging s) && negb (isResizing s)); reflexivity.
Qed.

Lemma run_app s evs1 evs2 : run s (evs1 ++ evs2) = run (run s evs1) evs2.
Proof. unfold run. apply fold_left_app. Qed.

Lemma handleMouseMove_after_moves v rect e moves : forall s,
  forallb is_move moves = true ->
  video_parentElement v = Some rect ->
  handleMouseMove (Some v) e (run s moves) = handleMouseMove (Some v) e s.
Proof.
  induction moves as [|m moves IH]; intros s M Hv; [reflexivity|].
  cbn [forallb] in M. apply andb_true_iff in M as [M1 M2].
  destruct m as [|w e'|]; try discriminate.
  unfold run. cbn [fold_left dispatch]. fold (run (handleMouseMove w e' s) moves).
  rewrite IH by assumption. apply (handleMouseMove_last v rect); assumption.
Qed.

Lemma run_moves_idle moves : forall s,
  forallb is_move moves = true -> isDragging s = false ->
  run s moves = s.
Proof.
  induction moves as [|m moves IH]; intros s M D; [reflexivity|].
  cbn [forallb] in M. apply andb_true_iff in M as [M1 M2].
  destruct m as [|w e'|]; try discriminate.
  unfold run. cbn [fold_left dispatch].
  rewrite (handleMouseMove_not_dragging w e' s D). apply IH; assumption.
Qed.

End Moves.

(** X1.  The clamp holds the anchor exactly at the margins: in a dragging
    session with a container, a computed percentage below 10 is stored as
    10, one above 90 as 90, and one within [10, 90] is stored unchanged; on
    both axes. *)
Theorem drag_anchor_held_at_margins
  (v : Video) (rect : DOMRect) (e : MouseEvent) (s : Component) :
  isDragging s = true -> video_parentElement v = Some rect ->
  let p := subtitlePosition (handleMouseMove (Some v) e s) in
  let px := percent_x e s rect in
  let py := percent_y e s rect in
  ((px <? 10)%float = true -> x p = 10%float)
  /\ ((90 <? px)%float = true -> x p = 90%float)
  /\ ((10 <=? px)%float = true -> (px <=? 90)%float = true -> x p = px)
  /\ ((py <? 10)%float = true -> y p = 10%float)
  /\ ((90 <? py)%float = true -> y p = 90%float)
  /\ ((10 <=? py)%float = true -> (py <=? 90)%float = true -> y p = py).
Proof.
  intros D Hv. cbv zeta. rewrite (handleMouseMove_dragging v rect e s D Hv).
  cbn [subtitlePosition x y].
  repeat split; intros; auto using clamp_below, clamp_above, clamp_inside.
Qed.

Lemma drag_anchor_held_at_margins_witness :
  subtitlePosition
    (run initial [press_body 200 680 400 800; move_to 900 640 400 800])
  = mkPoint 90 20.
Proof.
  pose proof (drag_anchor_held_at_margins
                (mkVideo 0 0 (Some (mkRect 400 800))) (mkRect 400 800)
                (mkMouseEvent 900 640 false 0 0)
                (run initial [press_body 200 680 400 800])
                eq_refl eq_refl) as H.
  cbv zeta in H. destruct H as (_ & Hx & _ & _ & _ & Hy).
  specialize (Hx eq_refl). specialize (Hy eq_refl eq_refl).
  change (subtitlePosition
            (run initial [press_body 200 680 400 800; move_to 900 640 400 800]))
    with (subtitlePosition
            (handleMouseMove (Some (mkVideo 0 0 (Some (mkRect 400 800))))
               (mkMouseEvent 900 640 false 0 0)
               (run initial [press_body 200 680 400 800]))).
  destruct (subtitlePosition _) as [px py]. cbn [x y] in Hx, Hy.
  rewrite Hx, Hy. reflexivity.
Defined.

(** X2.  Moves are absolute, not incremental: with a container to measure,
    a move gives the same state whatever moves came before it since the
    last press or release; the anchor after a run of moves is the one the
    last move alone computes. *)
Theorem last_move_wins
  (v : Video) (rect : DOMRect) (e : MouseEvent) (moves : list PointerEvent)
  (s : Component) :
  forallb is_move moves = true ->
  video_parentElement v = Some rect ->
  run s (moves ++ [MouseMove (Some v) e]) = handleMouseMove (Some v) e s.
Proof.
  intros M Hv. rewrite run_app. cbn [run fold_left dispatch].
  fold (run s moves). apply (handleMouseMove_after_moves v rect); assumption.
Qed.

Lemma last_move_wins_witness :
  run initial
    ([press_body 200 680 400 800] ++
     [move_to 10 10 400 800; move_to 300 900 0 0; move_to 250 680 400 800])
  = run initial [press_body 200 680 400 800; move_to 250 680 400 800].
Proof.
  rewrite run_app.
  exact (last_move_wins (mkVideo 0 0 (Some (mkRect 400 800))) (mkRect 400 800)
           (mkMouseEvent 250 680 false 0 0)
           [move_to 10 10 400 800; move_to 300 900 0 0]
           (run initial [press_body 200 680 400 800]) eq_refl eq_refl).
Defined.

(** X3.  Once the pointer is released, moves are ignored: after
    [handleMouseUp], no sequence of moves changes anything in the
    component, whatever the session was and wherever the pointer goes. *)
Theorem moves_after_release_are_ignored
  (s : Component) (moves : list PointerEvent) :
  forallb is_move moves = true ->
  run (handleMouseUp s) moves = handleMouseUp s.
Proof.
  intros M. apply run_moves_idle; [assumption|reflexivity].
Qed.

Lemma moves_after_release_are_ignored_witness :
  run (handleMouseUp (run initial [press_body 200 680 400 800]))
      [move_to 0 0 400 800; move_to 250 680 0 0]
  = handleMouseUp (run initial [press_body 200 680 400 800]).
Proof.
  apply moves_after_release_are_ignored. reflexivity.
Defined.

(** X4.  Caption sync and the overlay do not interfere: a time update and a
    pointer event give the same component in either order. *)
Theorem time_update_commutes_with_pointer_events
  (v : option Video) (ev : PointerEvent) (s : Component) :
  handleTimeUpdate v (dispatch s ev) = dispatch (handleTimeUpdate v s) ev.
Proof.
  destruct v as [v|]; [|reflexivity].
  destruct ev as [e|w e|]; cbn [dispatch]; try reflexivity.
  destruct (isDragging s) eqn:D.
  - destruct w as [w|]; [|rewrite !handleMouseMove_unbound; reflexivity].
    destruct (video_parentElement w) as [rect|] eqn:Hw.
    + rewrite (handleMouseMove_dragging w rect e s D Hw).
      rewrite (handleMouseMove_dragging w rect e (handleTimeUpdate (Some v) s)
                 D Hw).
      reflexivity.
    + rewrite !(handleMouseMove_no_container w e _ Hw). reflexivity.
  - rewrite (handleMouseMove_not_dragging w e s D).
    rewrite (handleMouseMove_not_dragging w e (handleTimeUpdate (Some v) s) D).
    reflexivity.
Qed.

(** X5.  A time update forgets the past: the component after
    [handleTimeUpdate] with a bound video depends on the captions' ids,
    texts and time ranges and on the overlay state, not on any earlier time
    update; in particular it is idempotent. *)
Theorem time_update_forgets_earlier_updates
  (v : Video) (v' : option Video) (s : Component) :
  handleTimeUpdate (Some v) (handleTimeUpdate v' s)
  = handleTimeUpdate (Some v) s.
Proof.
  destruct v' as [v'|]; [|reflexivity].
  cbn [handleTimeUpdate captions subtitlePosition isDragging dragStart
       subtitleSize isResizing].
  rewrite map_map. reflexivity.
Qed.

Section Intervals.

Lemma in_interval_inverted t c : inverted c = true -> in_interval t c = false.
Proof.
  unfold inverted, in_interval, JS.ge, JS.le. intros I.
  destruct (to_number (start c) <=? t)%float eqn:L; [|reflexivity].
  destruct (t <=? to_number (end_ c))%float eqn:U; [|reflexivity].
  pose proof (leb_trans _ _ _ L U) as T.
  apply leb_not_ltb in T. congruence.
Qed.

Lemma visible_text_filter (keep : Caption -> bool) t cs :
  (forall c, keep c = false -> in_interval t c = false) ->
  visible_text t (filter keep cs) = visible_text t cs.
Proof.
  intros K. induction cs as [|c cs IH]; [reflexivity|].
  cbn [filter visible_text]. destruct (keep c) eqn:E.
  - cbn [visible_text]. rewrite IH. reflexivity.
  - rewrite (K c E). assumption.
Qed.

Lemma visible_text_app t l1 l2 :
  Forall (fun d => in_interval t d = false) l1 ->
  visible_text t (l1 ++ l2) = visible_text t l2.
Proof.
  induction 1 as [|d l1 Hd _ IH]; [reflexivity|].
  cbn [app visible_text]. rewrite Hd. assumption.
Qed.


End Intervals.

(** X6.  A caption whose [end] lies before its [start] is never active and
    never shown: at every playback position [handleTimeUpdate] leaves it
    inactive, and the subtitle text is the one the other captions give.
    (The parser keeps such captions as they are read.) *)
Theorem inverted_caption_never_active (v : Video) (s : Component) :
  let s' := handleTimeUpdate (Some v) s in
  Forall (fun c => inverted c = true -> active c = false) (captions s')
  /\ subtitleText s' =
     visible_text (video_currentTime v)
       (filter (fun c => negb (inverted c)) (captions s)).
Proof.
  cbv zeta. cbn [handleTimeUpdate captions subtitleText]. split.
  - apply Forall_forall. intros c' Hin.
    apply in_map_iff in Hin as (c & <- & _).
    change (inverted c = true -> in_interval (video_currentTime v) c = false).
    apply in_interval_inverted.
  - rewrite find_active_visible. symmetry. apply visible_text_filter.
    intros c H. apply negb_false_iff in H. apply in_interval_inverted, H.
Qed.



(* ================================================================== *)
(** * Editing captions                                                 *)
(* ================================================================== *)

Section Editing.

(** The function mapped over the captions by [handleCaptionUpdate]. *)
Lemma update_captions i txt s :
  captions (handleCaptionUpdate i txt s) =
  map (fun c => if (id c =? i)%Z
                then mkCaption (id c) txt (active c) (start c) (end_ c)
                else c) (captions s).
Proof. reflexivity. Qed.

Lemma map_update_other i txt (l : list Caption) :
  Forall (fun c => id c <> i) l ->
  map (fun c => if (id c =? i)%Z
                then mkCaption (id c) txt (active c) (start c) (end_ c)
                else c) l = l.
Proof.
  induction 1 as [|c l Hc _ IH]; [reflexivity|].
  cbn [map]. rewrite IH. apply Z.eqb_neq in Hc. rewrite Hc. reflexivity.
Qed.

Lemma sorted_middle (l1 l2 : list Z) (a : Z) :
  StronglySorted Z.lt (l1 ++ a :: l2) ->
  Forall (fun i => i <> a) l1 /\ Forall (fun i => i <> a) l2.
Proof.
  induction l1 as [|h l1 IH]; cbn [app]; intros H;
    inversion H as [|? ? Hs Hf]; subst.
  - split; [constructor|].
    eapply Forall_impl; [|exact Hf]. cbv beta. intros; lia.
  - destruct (IH Hs) as [H1 H2]. split; [|assumption].
    constructor; [|assumption].
    apply Forall_app in Hf as [_ Hf]. inversion Hf; subst. lia.
Qed.

Lemma parseSrt_sorted src caps :
  parseSrt src = Normal caps -> StronglySorted Z.lt (map id caps).
Proof.
  unfold parseSrt.
  destruct (parseSrt_loop parseSrt_init (split_lines src)) as [st|] eqn:E;
    [|discriminate].
  cbn [bind]. intros [= <-].
  pose proof (loop_ids _ _ _ parseSrt_init_wf E) as (_ & W).
  destruct (push_current_ids st) as [rest R]. rewrite R in W.
  apply ids_wf_prefix in W. tauto.
Qed.

Lemma in_interval_update t c txt :
  in_interval t (mkCaption (id c) txt (active c) (start c) (end_ c))
  = in_interval t c.
Proof. reflexivity. Qed.

End Editing.

(** X8.  [handleCaptionUpdate] changes texts only: ids, active flags and
    time ranges of all captions, their number and order, the subtitle text
    on display, the overlay (its anchor, size, session flags and
    [dragStart]) and the clock are as before; the text of a caption becomes
    the new text exactly when its id is the given one.  With an id that no
    caption has, the component is unchanged. *)
Theorem caption_update_changes_matching_texts
  (i : Z) (txt : string) (s : Component) :
  let s' := handleCaptionUpdate i txt s in
  map (fun c => (id c, active c, start c, end_ c)) (captions s')
  = map (fun c => (id c, active c, start c, end_ c)) (captions s)
  /\ map text (captions s')
     = map (fun c => if (id c =? i)%Z then txt else text c) (captions s)
  /\ subtitleText s' = subtitleText s
  /\ subtitlePosition s' = subtitlePosition s
  /\ subtitleSize s' = subtitleSize s
  /\ isDragging s' = isDragging s
  /\ isResizing s' = isResizing s
  /\ dragStart s' = dragStart s
  /\ currentTime s' = currentTime s
  /\ duration s' = duration s
  /\ (Forall (fun c => id c <> i) (captions s) -> s' = s).
Proof.
  cbv zeta. repeat split.
  - rewrite update_captions, map_map. apply map_ext.
    intros c. destruct (id c =? i)%Z; reflexivity.
  - rewrite update_captions, map_map. apply map_ext.
    intros c. destruct (id c =? i)%Z; reflexivity.
  - intros H. unfold handleCaptionUpdate. rewrite map_update_other by exact H.
    destruct s; reflexivity.
Qed.

Lemma caption_update_changes_matching_texts_witness :
  handleCaptionUpdate 7 "new" (loaded captions_AB) = loaded captions_AB.
Proof.
  pose proof (caption_update_changes_matching_texts 7 "new"
                (loaded captions_AB)) as H.
  cbv zeta in H. destruct H as (_ & _ & _ & _ & _ & _ & _ & _ & _ & _ & H).
  apply H. repeat constructor; discriminate.
Defined.

(** X9.  Edits compose: two edits of the same id leave the text of the
    second, and edits of different ids commute. *)
Theorem caption_updates_compose
  (i j : Z) (ti tj : string) (s : Component) :
  handleCaptionUpdate i tj (handleCaptionUpdate i ti s)
  = handleCaptionUpdate i tj s
  /\ (i <> j ->
      handleCaptionUpdate i ti (handleCaptionUpdate j tj s)
      = handleCaptionUpdate j tj (handleCaptionUpdate i ti s)).
Proof.
  split.
  - unfold handleCaptionUpdate at 1 3. rewrite update_captions, map_map.
    cbn [currentTime duration subtitlePosition subtitleText isDragging
         dragStart subtitleSize isResizing handleCaptionUpdate].
    f_equal. apply map_ext. intros c.
    destruct (id c =? i)%Z eqn:E; cbn [id]; rewrite E; reflexivity.
  - intros Hij.
    unfold handleCaptionUpdate at 1 3. rewrite !update_captions, !map_map.
    cbn [currentTime duration subtitlePosition subtitleText isDragging
         dragStart subtitleSize isResizing handleCaptionUpdate].
    f_equal. apply map_ext. intros c.
    destruct (id c =? i)%Z eqn:Ei; destruct (id c =? j)%Z eqn:Ej;
      cbn [id]; rewrite ?Ei, ?Ej; try reflexivity.
    apply Z.eqb_eq in Ei, Ej. congruence.
Qed.

Lemma caption_updates_compose_witness :
  handleCaptionUpdate 1 "one" (handleCaptionUpdate 2 "two" (loaded captions_AB))
  = handleCaptionUpdate 2 "two" (handleCaptionUpdate 1 "one" (loaded captions_AB)).
Proof.
  apply (proj2 (caption_updates_compose 1 2 "one" "two" (loaded captions_AB))).
  discriminate.
Defined.

(** X10.  On the captions the parser returns, an edit addressed by a
    caption's id replaces the text of that caption and of no other, because
    the parser never gives two captions the same id. *)
Theorem caption_update_edits_one_parsed_caption
  (src : string) (l1 l2 : list Caption) (c : Caption) (txt : string) :
  parseSrt src = Normal (l1 ++ c :: l2)%list ->
  NoDup (map id (l1 ++ c :: l2))
  /\ captions (handleCaptionUpdate (id c) txt (loaded (l1 ++ c :: l2)))
     = (l1 ++ mkCaption (id c) txt (active c) (start c) (end_ c) :: l2)%list.
Proof.
  intros H. apply parseSrt_sorted in H. split.
  - apply StronglySorted_Sorted, Sorted_StronglySorted in H.
    + clear - H. induction H as [|a l Hs IH Hf]; constructor; auto.
      intros Hin. rewrite Forall_forall in Hf. specialize (Hf a Hin). lia.
    + intros a b d; apply Z.lt_trans.
  - rewrite map_app in H. cbn [map] in H.
    apply sorted_middle in H as [H1 H2].
    rewrite update_captions. cbn [loaded captions].
    rewrite map_app. cbn [map]. rewrite Z.eqb_refl.
    rewrite !map_update_other; [reflexivity| |].
    + rewrite Forall_map in H2. exact H2.
    + rewrite Forall_map in H1. exact H1.
Qed.

Lemma caption_update_edits_one_parsed_caption_witness :
  captions
    (handleCaptionUpdate 2 "Bye"
       (loaded [ mkCaption 1 "Hello" false (Some 1%float) (Some 2%float);
                 mkCaption 2 "Hi" false (Some 3%float) (Some 4%float) ]))
  = [ mkCaption 1 "Hello" false (Some 1%float) (Some 2%float);
      mkCaption 2 "Bye" false (Some 3%float) (Some 4%float) ].
Proof.
  exact (proj2 (caption_update_edits_one_parsed_caption srt_two_blocks
                  [mkCaption 1 "Hello" false (Some 1%float) (Some 2%float)] []
                  (mkCaption 2 "Hi" false (Some 3%float) (Some 4%float))
                  "Bye" eq_refl)).
Defined.

(** X11.  An edit does not refresh the overlay, the next time update does:
    [handleCaptionUpdate] leaves the subtitle text as it is, and never
    changes which captions a later time update marks active; after that
    time update the subtitle text is the new text whenever the first
    caption whose range contains the playback position has the edited id. *)
Theorem caption_update_shows_at_next_time_update
  (i : Z) (txt : string) (v : Video) (s : Component) :
  subtitleText (handleCaptionUpdate i txt (handleTimeUpdate (Some v) s))
  = subtitleText (handleTimeUpdate (Some v) s)
  /\ captions (handleTimeUpdate (Some v) (handleCaptionUpdate i txt s))
     = captions (handleCaptionUpdate i txt (handleTimeUpdate (Some v) s))
  /\ (forall l1 c l2,
      captions s = (l1 ++ c :: l2)%list ->
      Forall (fun d => in_interval (video_currentTime v) d = false) l1 ->
      in_interval (video_currentTime v) c = true ->
      id c = i ->
      subtitleText (handleTimeUpdate (Some v) s) = text c
      /\ subtitleText (handleTimeUpdate (Some v) (handleCaptionUpdate i txt s))
         = txt).
Proof.
  split; [reflexivity|]. split.
  - cbn [handleTimeUpdate captions handleCaptionUpdate]. rewrite !map_map.
    apply map_ext. intros c. cbn [mark_active id].
    destruct (id c =? i)%Z; reflexivity.
  - intros l1 c l2 Hs Hl1 Hc Hi. subst i.
    cbn [handleTimeUpdate subtitleText]. rewrite !find_active_visible.
    rewrite update_captions, Hs. split.
    + rewrite (visible_text_app _ _ _ Hl1). cbn [visible_text].
      rewrite Hc. reflexivity.
    + rewrite map_app. cbn [map]. rewrite Z.eqb_refl.
      rewrite visible_text_app.
      * cbn [visible_text]. rewrite in_interval_update, Hc. reflexivity.
      * apply Forall_map. eapply Forall_impl; [|exact Hl1]. cbv beta.
        intros d Hd. destruct (id d =? id c)%Z; [|exact Hd].
        rewrite in_interval_update. exact Hd.
Qed.

Lemma caption_update_shows_at_next_time_update_witness :
  subtitleText
    (handleTimeUpdate (playing_at 3%float)
       (handleCaptionUpdate 2 "edited" (loaded captions_AB))) = "edited".
Proof.
  refine (proj2 (proj2 (proj2
            (caption_update_shows_at_next_time_update 2 "edited"
               (mkVideo 3 4 None) (loaded captions_AB)))
            [mkCaption 1 "A" false (Some 0%float) (Some 2%float)]
            (mkCaption 2 "B" false (Some 2%float) (Some 4%float)) []
            eq_refl _ eq_refl eq_refl)).
  repeat constructor.
Defined.

(** X12.  The play button keeps a flag of its own: with a bound video, [n]
    clicks make [n] calls, alternating between play and pause and starting
    with play exactly when the flag said paused, and flip [isPlaying] when
    [n] is odd; with no video bound, clicks do nothing. *)
Theorem togglePlay_clicks (v : Video) (n : nat) (isPlaying : bool) :
  fst (togglePlay_times (Some v) n isPlaying)
  = (if Nat.even n then isPlaying else negb isPlaying)
  /\ List.length (snd (togglePlay_times (Some v) n isPlaying)) = n
  /\ (forall k, k < n ->
        nth_error (snd (togglePlay_times (Some v) n isPlaying)) k
        = Some (if xorb isPlaying (Nat.odd k) then CallPause else CallPlay))
  /\ togglePlay_times None n isPlaying = (isPlaying, []).
Proof.
  repeat split; revert isPlaying.
  - induction n as [|n IH]; intros p; [reflexivity|].
    cbn [togglePlay_times togglePlay].
    specialize (IH (negb p)).
    destruct (togglePlay_times (Some v) n (negb p)) as [p' calls].
    cbn [fst] in *. rewrite IH, Nat.even_succ, <- Nat.negb_even.
    destruct (Nat.even n), p; reflexivity.
  - induction n as [|n IH]; intros p; [reflexivity|].
    cbn [togglePlay_times togglePlay].
    specialize (IH (negb p)).
    destruct (togglePlay_times (Some v) n (negb p)) as [p' calls].
    cbn [snd List.length] in *. rewrite IH. reflexivity.
  - induction n as [|n IH]; intros p k Hk; [lia|].
    cbn [togglePlay_times togglePlay].
    specialize (IH (negb p)).
    destruct (togglePlay_times (Some v) n (negb p)) as [p' calls].
    cbn [snd] in *. destruct k as [|k].
    + cbn. destruct p; reflexivity.
    + cbn [nth_error]. rewrite IH by lia.
      rewrite Nat.odd_succ, <- Nat.negb_odd.
      destruct p, (Nat.odd k); reflexivity.
  - induction n as [|n IH]; intros p; [reflexivity|].
    cbn [togglePlay_times togglePlay]. rewrite IH. reflexivity.
Qed.

Lemma togglePlay_clicks_witness :
  nth_error (snd (togglePlay_times (Some (mkVideo 0 4 None)) 3 false)) 2
  = Some CallPlay.
Proof.
  apply (proj1 (proj2 (proj2
           (togglePlay_clicks (mkVideo 0 4 None) 3 false)))).
  lia.
Defined.

(* ================================================================== *)
(** * What the parser returns, and when it fails                       *)
(* ================================================================== *)

Section Outcomes.

Lemma cons_head_Forall (P : string -> Prop) c l :
  (forall h, P h -> P (String c h)) -> P (String c "") ->
  Forall P l -> Forall P (cons_head c l).
Proof.
  intros Hc H0 H. destruct H; cbn; constructor; auto.
Qed.

Lemma split_lines_white_bounded n : forall s,
  String.length s <= n ->
  all_white_space s = true ->
  Forall (fun l => all_white_space l = true) (split_lines s).
Proof.
  induction n as [|n IH]; intros s Hn.
  - destruct s; [repeat constructor|cbn in Hn; lia].
  - destruct s as [|c s]; [repeat constructor|].
    cbn [String.length] in Hn.
    cbn [all_white_space split_lines]. intros H.
    apply andb_true_iff in H as [Hc Hs].
    assert (Hcons : Forall (fun l => all_white_space l = true)
                      (cons_head c (split_lines s))).
    { apply cons_head_Forall.
      - intros h Hh. cbn. rewrite Hc, Hh. reflexivity.
      - cbn. rewrite Hc. reflexivity.
      - apply IH; [lia|assumption]. }
    destruct (Ascii.eqb c LF).
    { constructor; [reflexivity|]. apply IH; [lia|assumption]. }
    destruct (Ascii.eqb c CR); [|assumption].
    destruct s as [|c' s']; [assumption|].
    destruct (Ascii.eqb c' LF); [|assumption].
    constructor; [reflexivity|]. cbn [String.length] in Hn.
    apply IH; [lia|].
    cbn in Hs. apply andb_true_iff in Hs. tauto.
Qed.

Lemma split_lines_white s :
  all_white_space s = true ->
  Forall (fun l => all_white_space l = true) (split_lines s).
Proof. apply (split_lines_white_bounded (String.length s)). lia. Qed.

Lemma loop_blank_lines lines : forall st,
  Forall (fun l => all_white_space l = true) lines ->
  currentCaption st = None ->
  parseSrt_loop st lines = Normal st.
Proof.
  induction lines as [|l lines IH]; intros st H Hc; [reflexivity|].
  inversion H as [|? ? Hl Hr]; subst. apply blank_iff in Hl.
  rewrite loop_cons, (line_blank st l Hl). cbn [bind].
  rewrite IH by (assumption || reflexivity).
  unfold push_current. rewrite Hc. destruct st; cbn in *; subst; reflexivity.
Qed.

(** *** Tidy texts *)

Lemma trimEnd_head c r :
  is_white_space c = false -> exists r', trimEnd (String c r) = String c r'.
Proof.
  intros H. cbn [trimEnd]. destruct (trimEnd r); rewrite ?H; eauto.
Qed.

Lemma trimEnd_idempotent s : trimEnd (trimEnd s) = trimEnd s.
Proof.
  induction s as [|c s IH]; [reflexivity|].
  cbn [trimEnd]. destruct (trimEnd s) as [|d r] eqn:E.
  - destruct (is_white_space c) eqn:W; [reflexivity|].
    cbn [trimEnd]. rewrite W. reflexivity.
  - cbn [trimEnd] in *. rewrite IH. reflexivity.
Qed.

Lemma trimStart_head s :
  match trimStart s with
  | String c _ => is_white_space c = false
  | EmptyString => True
  end.
Proof.
  induction s as [|c s IH]; cbn [trimStart]; [exact I|].
  destruct (is_white_space c) eqn:W; [exact IH|exact W].
Qed.

Lemma tidy_trim l : (trim l =? "") = false -> tidy (trim l).
Proof.
  intros H. apply String.eqb_neq in H. unfold trim in *.
  pose proof (trimStart_head l) as Hh.
  destruct (trimStart l) as [|c r]; [cbn in H; congruence|].
  destruct (trimEnd_head c r Hh) as [r' E].
  unfold tidy. rewrite E. split; [assumption|].
  rewrite <- E. apply trimEnd_idempotent.
Qed.

Lemma trimEnd_app a b :
  trimEnd b <> "" -> trimEnd (a ++ b) = a ++ trimEnd b.
Proof.
  intros Hb. induction a as [|c a IH]; [reflexivity|].
  cbn [append trimEnd]. rewrite IH.
  destruct (a ++ trimEnd b) eqn:E; [|reflexivity].
  destruct a; cbn in E; [congruence|discriminate].
Qed.

Lemma tidy_trimEnd s : tidy s -> trimEnd s = s /\ s <> "".
Proof. destruct s; cbn; [tauto|]. intros [_ H]. split; [exact H|discriminate]. Qed.

Lemma tidy_app a b : tidy a -> tidy b -> tidy (a ++ String LF b).
Proof.
  destruct a as [|c r]; [intros []|]. intros [Hc _] Tb.
  destruct (tidy_trimEnd b Tb) as [Eb Nb].
  assert (E : trimEnd (String c r ++ String LF b) = String c r ++ String LF b).
  { rewrite trimEnd_app.
    - f_equal. cbn [trimEnd]. rewrite Eb. destruct b; [congruence|reflexivity].
    - cbn [trimEnd]. rewrite Eb. destruct b; [congruence|discriminate]. }
  cbn [append] in *. split; assumption.
Qed.

Lemma tidy_add_line t l :
  t = "" \/ tidy t -> (trim l =? "") = false -> tidy (add_line t l).
Proof.
  intros Ht Hl. pose proof (tidy_trim l Hl) as Tl. unfold add_line.
  destruct Ht as [->|Ht]; [exact Tl|].
  destruct (t =? "") eqn:E; [apply String.eqb_eq in E; subst; destruct Ht|].
  change (tidy (t ++ String LF (trim l))). apply tidy_app; assumption.
Qed.

Lemma tidy_trim_fixed s : tidy s -> trim s = s.
Proof.
  destruct s as [|c r]; [intros []|]. intros [Hc He].
  unfold trim. cbn [trimStart]. rewrite Hc. exact He.
Qed.

(** *** The invariant of the loop *)

Lemma assign_range_fields c l c' :
  assign_range c l = Normal c' ->
  id c' = id c /\ text c' = text c /\ active c' = active c /\
  (exists s e, start c' = Some s /\ end_ c' = Some e).
Proof.
  unfold assign_range.
  destruct (nth_error _ 0); [|discriminate].
  destruct (nth_error _ 1); [|discriminate].
  destruct (srtTimeToSeconds s) as [a|]; [|discriminate]. cbn [bind].
  destruct (srtTimeToSeconds s0) as [b|]; [|discriminate]. cbn [bind].
  intros [= <-]. cbn. repeat split; try reflexivity.
  exists a, b. split; reflexivity.
Qed.

Lemma push_current_wf st :
  state_wf st -> Forall committed_wf (push_current st).
Proof.
  intros [Hp Hc]. unfold push_current.
  destruct (currentCaption st) as [c|]; [|assumption].
  destruct (trim (text c) =? "") eqn:E; cbn [negb]; [assumption|].
  apply Forall_app. split; [assumption|]. constructor; [|constructor].
  destruct Hc as (Ha & [Ht|Ht] & Hr).
  - rewrite Ht in E. discriminate.
  - repeat split; tauto.
Qed.

Lemma line_wf st l st' :
  state_wf st -> parseSrt_line st l = Normal st' -> state_wf st'.
Proof.
  intros W. unfold parseSrt_line.
  destruct (trim l =? "") eqn:B.
  - intros [= <-]. split; [apply push_current_wf, W|exact I].
  - destruct W as [Wp Wc]. destruct (currentCaption st) as [c|].
    + destruct (includes "-->" l).
      * destruct (assign_range c l) as [c'|] eqn:E; [|discriminate].
        cbn [bind]. intros [= <-]. split; [exact Wp|].
        cbn [currentCaption].
        apply assign_range_fields in E as (_ & Et & Ea & s & e & Es & Ee).
        destruct Wc as (Ha & Ht & _). unfold open_wf.
        rewrite Et, Ea, Es, Ee. repeat split; auto; discriminate.
      * intros [= <-]. split; [exact Wp|]. cbn [currentCaption].
        destruct Wc as (Ha & Ht & Hr). unfold open_wf, append_text.
        cbn [active text start end_]. repeat split; try tauto.
        right. apply (tidy_add_line (text c) l Ht B).
    + intros [= <-]. split; [exact Wp|]. cbn [currentCaption].
      unfold open_wf. cbn. tauto.
Qed.

Lemma loop_wf lines : forall st st',
  state_wf st -> parseSrt_loop st lines = Normal st' -> state_wf st'.
Proof.
  induction lines as [|l lines IH]; intros st st' W.
  - intros [= <-]. assumption.
  - rewrite loop_cons. destruct (parseSrt_line st l) as [st1|] eqn:E;
      [|discriminate].
    cbn [bind]. apply IH. eapply line_wf; eassumption.
Qed.

(** *** Failure *)

Lemma assign_range_throws c l : throws (assign_range c l) = bad_range l.
Proof.
  unfold assign_range, bad_range.
  destruct (map trim (split "-->" l)) as [|a [|b t]]; try reflexivity.
  cbn [nth_error].
  pose proof (srtTimeToSeconds_throws_iff a) as Ta.
  pose proof (srtTimeToSeconds_throws_iff b) as Tb.
  destruct (srtTimeToSeconds a) as [x|]; cbn [bind throws] in *.
  - destruct (srtTimeToSeconds b) as [y|]; cbn [bind throws] in *.
    + destruct (Nat.ltb_spec (count_char ":" a) 2);
        destruct (Nat.ltb_spec (count_char ":" b) 2); cbn; try reflexivity;
        (apply Ta in H || apply Tb in H0 || apply Tb in H); discriminate.
    + assert (Hb : count_char ":" b < 2) by (apply Tb; reflexivity).
      apply Nat.ltb_lt in Hb. rewrite Hb, orb_true_r. reflexivity.
  - assert (Ha : count_char ":" a < 2) by (apply Ta; reflexivity).
    apply Nat.ltb_lt in Ha. rewrite Ha. reflexivity.
Qed.

Lemma loop_throws lines : forall st,
  throws (parseSrt_loop st lines) = has_bad_range (in_block st) lines.
Proof.
  induction lines as [|l lines IH]; intros st; [reflexivity|].
  rewrite loop_cons. cbn [has_bad_range]. unfold parseSrt_line, in_block.
  destruct (trim l =? "").
  - cbn [bind]. rewrite IH. reflexivity.
  - destruct (currentCaption st) as [c|]; cbn [andb].
    + destruct (includes "-->" l); cbn [andb].
      * rewrite <- (assign_range_throws c l).
        destruct (assign_range c l); cbn [bind throws]; [|reflexivity].
        rewrite IH. reflexivity.
      * cbn [bind]. rewrite IH. reflexivity.
    + cbn [bind]. rewrite IH. reflexivity.
Qed.

End Outcomes.

(** X13.  Text made of white space and line breaks only, the empty text
    included, parses to no caption. *)
Theorem parseSrt_blank_text (src : string) :
  all_white_space src = true -> parseSrt src = Normal [].
Proof.
  intros H. unfold parseSrt.
  rewrite (loop_blank_lines _ parseSrt_init (split_lines_white src H) eq_refl).
  reflexivity.
Qed.

Lemma parseSrt_blank_text_witness :
  parseSrt (String CR (String LF (String " " (String LF "")))) = Normal [].
Proof. apply parseSrt_blank_text. reflexivity. Defined.

(** X14.  Every caption the parser returns is inactive, has a text that is
    not empty and carries no white space at either end (so trimming it
    changes nothing), and has either both [start] and [end] or neither. *)
Theorem parseSrt_returns_wellformed_captions
  (src : string) (caps : list Caption) :
  parseSrt src = Normal caps ->
  Forall (fun c =>
            active c = false /\ text c <> "" /\ trim (text c) = text c /\
            (start c = None <-> end_ c = None)) caps.
Proof.
  unfold parseSrt.
  destruct (parseSrt_loop parseSrt_init (split_lines src)) as [st|] eqn:E;
    [|discriminate].
  cbn [bind]. intros [= <-].
  assert (W : state_wf parseSrt_init) by (split; [constructor|exact I]).
  pose proof (push_current_wf st (loop_wf _ _ _ W E)) as H.
  eapply Forall_impl; [|exact H]. cbv beta.
  intros c (Ha & Ht & Hr). repeat split; try tauto.
  - apply tidy_trimEnd in Ht. tauto.
  - apply tidy_trim_fixed, Ht.
Qed.

Lemma parseSrt_returns_wellformed_captions_witness :
  Forall (fun c =>
            active c = false /\ text c <> "" /\ trim (text c) = text c /\
            (start c = None <-> end_ c = None))
    [ mkCaption 1 "Hello" false (Some 1%float) (Some 2%float);
      mkCaption 2 "Hi" false (Some 3%float) (Some 4%float) ].
Proof.
  apply (parseSrt_returns_wellformed_captions srt_two_blocks). reflexivity.
Defined.

(** X15.  The parser fails exactly when some line that continues a block
    contains [-->] and the text before the first [-->] or the text between
    the first two, once trimmed, has fewer than two colons; otherwise it
    returns.  One such line anywhere makes the whole parse fail. *)
Theorem parseSrt_fails_on_bad_range_only (src : string) :
  throws (parseSrt src) = has_bad_range false (split_lines src).
Proof.
  unfold parseSrt.
  pose proof (loop_throws (split_lines src) parseSrt_init) as H.
  change (in_block parseSrt_init) with false in H. rewrite <- H.
  destruct (parseSrt_loop parseSrt_init (split_lines src)); reflexivity.
Qed.

(* ================================================================== *)
(** * Line breaks, stray characters and the order of lines             *)
(* ================================================================== *)

Section LineBreaks.

Lemma split_lines_not_nil s : split_lines s <> [].
Proof.
  destruct s as [|c s]; [discriminate|]. cbn [split_lines].
  assert (H : forall l, cons_head c l <> []) by (intros []; discriminate).
  destruct (Ascii.eqb c LF); [discriminate|].
  destruct (Ascii.eqb c CR); [|apply H].
  destruct s as [|c' s']; [apply H|].
  destruct (Ascii.eqb c' LF); [discriminate|apply H].
Qed.

Lemma cons_head_app c (l1 l2 : list string) :
  l1 <> [] -> cons_head c (l1 ++ l2) = (cons_head c l1 ++ l2)%list.
Proof. destruct l1; [congruence|reflexivity]. Qed.

Lemma last_is_CR_cons c r : r <> "" -> last_is_CR (String c r) = last_is_CR r.
Proof. destruct r; [congruence|reflexivity]. Qed.

(** Cutting at a line break, LF or CR LF, that does not follow a CR. *)
Lemma split_lines_cut_bounded brk t n :
  split_lines brk = "" :: split_lines t ->
  brk <> "" ->
  forall s, String.length s <= n -> last_is_CR s = false ->
  split_lines (s ++ brk) = (split_lines s ++ split_lines t)%list.
Proof.
  intros Hbrk Hne. induction n as [|n IH]; intros s Hn Hs.
  - destruct s; [exact Hbrk|cbn in Hn; lia].
  - destruct s as [|c r]; [exact Hbrk|]. cbn [String.length] in Hn.
    assert (Hr : r <> "" -> last_is_CR r = false).
    { intros N. rewrite <- (last_is_CR_cons c r N). exact Hs. }
    assert (Hplain : cons_head c (split_lines (r ++ brk))
                     = (cons_head c (split_lines r) ++ split_lines t)%list).
    { destruct r as [|c' r'].
      - cbn [append]. rewrite Hbrk. reflexivity.
      - rewrite IH by (cbn [String.length] in *; try lia; apply Hr; discriminate).
        apply cons_head_app, split_lines_not_nil. }
    cbn [append split_lines].
    destruct (Ascii.eqb c LF) eqn:ELF.
    { destruct r as [|c' r'].
      - cbn [append]. rewrite Hbrk. reflexivity.
      - rewrite IH by (cbn [String.length] in *; try lia; apply Hr; discriminate).
        reflexivity. }
    destruct (Ascii.eqb c CR) eqn:ECR; [|exact Hplain].
    destruct r as [|c' r'].
    + cbn [last_is_CR] in Hs. rewrite ECR in Hs. discriminate.
    + cbn [append]. destruct (Ascii.eqb c' LF) eqn:E'; [|exact Hplain].
      destruct r' as [|c'' r''].
      * cbn [append]. rewrite Hbrk. reflexivity.
      * rewrite IH; [reflexivity|cbn [String.length] in *; lia|].
        specialize (Hr ltac:(discriminate)).
        rewrite last_is_CR_cons in Hr by discriminate. exact Hr.
Qed.

Lemma split_lines_cut_LF s t :
  last_is_CR s = false ->
  split_lines (s ++ String LF t) = (split_lines s ++ split_lines t)%list.
Proof.
  intros H. apply (split_lines_cut_bounded _ t (String.length s));
    try reflexivity; try discriminate; auto.
Qed.

Lemma split_lines_cut_CRLF s t :
  last_is_CR s = false ->
  split_lines (s ++ String CR (String LF t))
  = (split_lines s ++ split_lines t)%list.
Proof.
  intros H. apply (split_lines_cut_bounded _ t (String.length s));
    try reflexivity; try discriminate; auto.
Qed.

Lemma plain_split_lines l : plain l -> split_lines l = [l].
Proof.
  intros [HL HC]. induction l as [|c l IH]; [reflexivity|].
  apply count_char_cons_0 in HL as [HL1 HL2].
  apply count_char_cons_0 in HC as [HC1 HC2].
  cbn [split_lines]. rewrite Ascii.eqb_sym in HL1. rewrite Ascii.eqb_sym in HC1.
  rewrite HL1, HC1, IH by assumption. reflexivity.
Qed.

Lemma plain_last l : plain l -> last_is_CR l = false.
Proof.
  intros [_ HC]. induction l as [|c l IH]; [reflexivity|].
  apply count_char_cons_0 in HC as [HC1 HC2].
  destruct l as [|c' l'].
  - cbn [last_is_CR]. rewrite Ascii.eqb_sym. exact HC1.
  - rewrite last_is_CR_cons by discriminate. apply IH, HC2.
Qed.

Lemma split_lines_joined (sep : string) ls :
  (forall s t, last_is_CR s = false ->
               split_lines (s ++ sep ++ t)
               = (split_lines s ++ split_lines t)%list) ->
  ls <> [] -> Forall plain ls ->
  split_lines (String.concat sep ls) = ls.
Proof.
  intros Hsep Hne H. induction H as [|l ls Hl Hls IH]; [congruence|].
  destruct ls as [|l' ls'].
  - cbn. apply plain_split_lines, Hl.
  - change (String.concat sep (l :: l' :: ls'))
      with (l ++ sep ++ String.concat sep (l' :: ls')).
    rewrite Hsep by (apply plain_last, Hl).
    rewrite (plain_split_lines l Hl), IH by discriminate. reflexivity.
Qed.

End LineBreaks.

(** X16.  The end of the input ends the last block as a blank line does:
    appending a line break, LF or CR LF, to a text that does not end in CR
    does not change what the parser returns. *)
Theorem parseSrt_final_line_break (src : string) :
  last_is_CR src = false ->
  parseSrt (src ++ String LF "") = parseSrt src
  /\ parseSrt (src ++ String CR (String LF "")) = parseSrt src.
Proof.
  intros H.
  assert (E : forall lines,
             (st <- parseSrt_loop parseSrt_init (lines ++ [""]) ;;
              Normal (push_current st))
             = (st <- parseSrt_loop parseSrt_init lines ;;
                Normal (push_current st))).
  { intros lines. rewrite loop_app.
    destruct (parseSrt_loop parseSrt_init lines) as [st|]; [|reflexivity].
    cbn [bind parseSrt_loop]. rewrite line_blank by reflexivity.
    cbn [bind]. unfold push_current at 1. reflexivity. }
  unfold parseSrt.
  rewrite (split_lines_cut_LF src "" H), (split_lines_cut_CRLF src "" H).
  cbn [split_lines]. split; apply E.
Qed.

Lemma parseSrt_final_line_break_witness :
  parseSrt (srt_two_blocks ++ String LF "") = parseSrt srt_two_blocks.
Proof.
  apply (proj1 (parseSrt_final_line_break srt_two_blocks eq_refl)).
Defined.

(** X17.  Unix and Windows line ends are read alike: for lines that do not
    themselves contain CR or LF, splitting their join by LF, or by CR LF,
    gives the lines back, so both files parse to the same result. *)
Theorem parseSrt_line_ends_alike (ls : list string) :
  ls <> [] -> Forall plain ls ->
  split_lines (unlines ls) = ls
  /\ split_lines (crlf_lines ls) = ls
  /\ parseSrt (crlf_lines ls) = parseSrt (unlines ls).
Proof.
  intros Hne H.
  assert (E1 : split_lines (unlines ls) = ls).
  { apply split_lines_joined; auto. intros s t. apply split_lines_cut_LF. }
  assert (E2 : split_lines (crlf_lines ls) = ls).
  { apply split_lines_joined; auto. intros s t. apply split_lines_cut_CRLF. }
  repeat split; try assumption.
  unfold parseSrt. rewrite E1, E2. reflexivity.
Qed.

Lemma parseSrt_line_ends_alike_witness :
  parseSrt (crlf_lines [ "1"; "00:00:01,000 --> 00:00:02,000"; "Hello" ])
  = Normal [mkCaption 1 "Hello" false (Some 1%float) (Some 2%float)].
Proof.
  rewrite (proj2 (proj2 (parseSrt_line_ends_alike
             [ "1"; "00:00:01,000 --> 00:00:02,000"; "Hello" ]
             ltac:(discriminate)
             ltac:(repeat constructor)))).
  reflexivity.
Defined.

Section Leniency.

Lemma split_char_not_nil c s : split (String c "") s <> [].
Proof.
  destruct s as [|b s]; [discriminate|]. rewrite split_char_cons.
  destruct (Ascii.eqb c b); [discriminate|].
  destruct (split (String c "") s); discriminate.
Qed.

Lemma split_char_prefix c a b :
  count_char c a = 0 ->
  split (String c "") (a ++ b) =
  match split (String c "") b with
  | h :: t => (a ++ h) :: t
  | [] => [a]
  end.
Proof.
  induction a as [|x a IH]; intros H.
  - cbn [append]. destruct (split (String c "") b) eqn:E; [|reflexivity].
    destruct (split_char_not_nil c b E).
  - apply count_char_cons_0 in H as [Hx Ha].
    cbn [append]. rewrite split_char_cons, Hx, IH by assumption.
    destruct (split (String c "") b); reflexivity.
Qed.

Lemma split_char_first_piece c j h t :
  split (String c "") j = h :: t ->
  no_leading_digit j = true -> no_leading_digit h = true.
Proof.
  destruct j as [|x r]; [intros [= <- _]; reflexivity|].
  rewrite split_char_cons. destruct (Ascii.eqb c x).
  - intros [= <- _] _. reflexivity.
  - destruct (split (String c "") r); intros [= <- _] H; exact H.
Qed.

Lemma digits_prefix_app m h :
  all_digits m = true -> no_leading_digit h = true ->
  digits_prefix (m ++ h) = m.
Proof.
  intros Hm Hh. induction m as [|c m IH].
  - destruct h as [|x r]; [reflexivity|]. cbn in *.
    apply negb_true_iff in Hh. rewrite Hh. reflexivity.
  - cbn in Hm. apply andb_true_iff in Hm as [Hc Hm].
    cbn [append digits_prefix]. rewrite Hc, IH by assumption. reflexivity.
Qed.

Lemma parseInt_numeral_then m h :
  is_numeral m = true -> no_leading_digit h = true ->
  parseInt (Some (m ++ h)) = numeral_value m.
Proof.
  intros Hm Hh. pose proof (is_numeral_all_digits m Hm) as Hd.
  destruct m as [|c r]; [discriminate|].
  assert (Hc : is_digit c = true).
  { cbn in Hd. apply andb_true_iff in Hd. tauto. }
  cbn [append]. rewrite (parseInt_digit_head c (r ++ h) Hc).
  change (String c (r ++ h)) with (String c r ++ h).
  rewrite (digits_prefix_app _ h Hd Hh).
  cbv zeta. rewrite digits_value_numeral, Z.mul_0_l, Z.add_0_l.
  unfold numeral_value.
  destruct (numeral_Z (String c r) =? 0)%Z eqn:E; [|reflexivity].
  apply Z.eqb_eq in E. rewrite E. reflexivity.
Qed.

Lemma timecode_app H M S m junk :
  timecode H M S m ++ junk =
  H ++ String ":" (M ++ String ":" ((S ++ String "," m) ++ junk)).
Proof.
  unfold timecode. rewrite !append_assoc. reflexivity.
Qed.

End Leniency.

(** X18.  Whatever follows the digits of the milliseconds is ignored: for
    numerals H, M, S and m, and any text that does not begin with a digit,
    [H:M:S,m] followed by that text converts to the same number of seconds
    as [H:M:S,m] alone. *)
Theorem srtTimeToSeconds_ignores_what_follows
  (H M S m junk : string) :
  is_numeral H = true -> is_numeral M = true ->
  is_numeral S = true -> is_numeral m = true ->
  no_leading_digit junk = true ->
  srtTimeToSeconds (timecode H M S m ++ junk)
  = srtTimeToSeconds (timecode H M S m)
  /\ srtTimeToSeconds (timecode H M S m ++ junk)
     = Normal (numeral_value H * 3600 + numeral_value M * 60 +
               numeral_value S + numeral_value m / 1000)%float.
Proof.
  intros HH HM HS Hm Hj.
  rewrite (srtTimeToSeconds_timecode H M S m HH HM HS Hm).
  assert (E : srtTimeToSeconds (timecode H M S m ++ junk)
              = Normal (numeral_value H * 3600 + numeral_value M * 60 +
                        numeral_value S + numeral_value m / 1000)%float);
    [|split; exact E].
  pose proof (is_numeral_all_digits _ HH) as dH.
  pose proof (is_numeral_all_digits _ HM) as dM.
  pose proof (is_numeral_all_digits _ HS) as dS.
  pose proof (is_numeral_all_digits _ Hm) as dm.
  rewrite timecode_app. unfold srtTimeToSeconds.
  rewrite !split_char_app by (apply all_digits_count; auto).
  rewrite split_char_prefix.
  2:{ rewrite count_char_app. cbn [count_char].
      rewrite !all_digits_count by auto. reflexivity. }
  destruct (split ":" junk) as [|h1 t1] eqn:E1;
    [destruct (split_char_not_nil _ _ E1)|].
  pose proof (split_char_first_piece _ _ _ _ E1 Hj) as Hh1.
  cbn [nth_error].
  rewrite append_assoc. cbn [append].
  rewrite split_char_app by (apply all_digits_count; auto).
  rewrite split_char_prefix by (apply all_digits_count; auto).
  destruct (split "," h1) as [|h2 t2] eqn:E2;
    [destruct (split_char_not_nil _ _ E2)|].
  pose proof (split_char_first_piece _ _ _ _ E2 Hh1) as Hh2.
  cbn [nth_error].
  rewrite !parseInt_numeral by assumption.
  rewrite (parseInt_numeral_then m h2 Hm Hh2). reflexivity.
Qed.

Lemma srtTimeToSeconds_ignores_what_follows_witness :
  srtTimeToSeconds "00:01:02,500 X:1,2" = Normal 62.5%float.
Proof.
  exact (proj2 (srtTimeToSeconds_ignores_what_follows
                  "00" "01" "02" "500" " X:1,2"
                  eq_refl eq_refl eq_refl eq_refl eq_refl)).
Defined.

Section AnyOrder.

Lemma fold_add_line_all ls :
  Forall (fun l => (trim l =? "") = false) ls ->
  fold_left add_line ls "" = joined ls.
Proof.
  intros H. destruct H as [|l ls Hl _]; [reflexivity|].
  apply fold_add_line_joined, Hl.
Qed.

Lemma range_of_assign c l s e :
  range_of l = Normal (s, e) ->
  assign_range c l
  = Normal (mkCaption (id c) (text c) (active c) (Some s) (Some e)).
Proof.
  unfold range_of, assign_range.
  destruct (map trim (split "-->" l)) as [|a [|b t]]; try discriminate.
  cbn [nth_error].
  destruct (srtTimeToSeconds a); [|discriminate]. cbn [bind].
  destruct (srtTimeToSeconds b); [|discriminate]. cbn [bind].
  intros [= -> ->]. reflexivity.
Qed.

(** Lines before the last range line: text lines add to the text, range
    lines that convert are overridden later. *)
Lemma loop_block_lines pre : forall st c,
  currentCaption st = Some c ->
  Forall (fun l => (trim l =? "") = false) pre ->
  Forall (fun l => includes "-->" l = true -> bad_range l = false) pre ->
  exists s e,
    parseSrt_loop st pre =
    Normal (mkParseState (parsedCaptions st)
              (Some (mkCaption (id c)
                       (fold_left add_line (text_lines pre) (text c))
                       (active c) s e))
              (idCounter st)).
Proof.
  induction pre as [|l pre IH]; intros [p cur n] c Hc Hb Hr;
    cbn [currentCaption] in Hc; subst cur.
  - exists (start c), (end_ c). destruct c; reflexivity.
  - inversion Hb as [|? ? Hl Hb']; subst.
    inversion Hr as [|? ? Hg Hr']; subst.
    rewrite loop_cons. unfold parseSrt_line. rewrite Hl.
    cbn [currentCaption parsedCaptions idCounter text_lines filter].
    destruct (includes "-->" l) eqn:I; cbn [negb].
    + specialize (Hg eq_refl). rewrite <- (assign_range_throws c l) in Hg.
      destruct (assign_range c l) as [c'|] eqn:E; [|discriminate].
      apply assign_range_fields in E as (Ei & Et & Ea & _).
      cbn [bind].
      destruct (IH (mkParseState p (Some c') n) c' eq_refl Hb' Hr')
        as (s & e & ->).
      cbn [parsedCaptions idCounter]. rewrite Ei, Et, Ea. eauto.
    + cbn [bind fold_left].
      destruct (IH (mkParseState p (Some (append_text c l)) n)
                  (append_text c l) eq_refl Hb' Hr') as (s & e & ->).
      cbn [parsedCaptions idCounter append_text id text active]. eauto.
Qed.

End AnyOrder.

(** X19.  Within a block the lines after the first are classified one by
    one, in any order: every line containing [-->] sets the time range and
    the last one wins; every other line is text, also when it comes before
    the range line.  So a block of an index line, lines whose ranges
    convert or that are text, a range line, and text lines is committed
    with the times of that last range line and all the text lines
    joined. *)
Theorem parseSrt_block_lines_in_any_order
  (st : ParseState) (idx : string) (pre : list string) (r : string)
  (post : list string) (s e : number) (blank : string) :
  currentCaption st = None ->
  (trim idx =? "") = false ->
  Forall (fun l => (trim l =? "") = false) pre ->
  Forall (fun l => includes "-->" l = true -> bad_range l = false) pre ->
  includes "-->" r = true -> range_of r = Normal (s, e) ->
  forallb text_line post = true ->
  (text_lines pre ++ post)%list <> [] ->
  (trim blank =? "") = true ->
  parseSrt_loop st (idx :: pre ++ r :: post ++ [blank])%list =
  Normal (mkParseState
            (parsedCaptions st ++
             [mkCaption (idCounter st)
                (joined (text_lines pre ++ post)%list) false
                (Some s) (Some e)])
            None (idCounter st + 1)).
Proof.
  intros Hc Hidx Hpre Hgood Hr Hrange Hpost Hne Hblank.
  assert (Hrb : (trim r =? "") = false).
  { apply not_true_iff_false. intros B. apply blank_iff in B.
    assert (N : forall u, all_white_space u = true -> includes "-->" u = false).
    { induction u as [|c u IH]; [reflexivity|]. cbn [all_white_space includes].
      intros W. apply andb_true_iff in W as [Wc Wu]. rewrite (IH Wu), orb_false_r.
      cbn [starts_with]. destruct (Ascii.eqb "-" c) eqn:E; [|reflexivity].
      apply Ascii.eqb_eq in E. subst c. discriminate. }
    rewrite (N r B) in Hr. discriminate. }
  rewrite loop_open by assumption.
  rewrite loop_app.
  destruct (loop_block_lines pre
              (mkParseState (parsedCaptions st)
                 (Some (mkCaption (idCounter st) "" false None None))
                 (idCounter st + 1))
              (mkCaption (idCounter st) "" false None None)
              eq_refl Hpre Hgood) as (s0 & e0 & ->).
  cbn [bind parsedCaptions idCounter id text active].
  rewrite loop_cons. unfold parseSrt_line at 1. rewrite Hrb.
  cbn [currentCaption]. rewrite Hr, (range_of_assign _ r s e Hrange).
  cbn [bind id text active parsedCaptions idCounter].
  rewrite loop_app.
  erewrite loop_text_lines by (reflexivity || eassumption).
  cbn [bind parsedCaptions idCounter id text active start end_ parseSrt_loop].
  rewrite line_blank by assumption. cbn [bind idCounter].
  rewrite <- fold_left_app.
  assert (Hall : Forall (fun l => (trim l =? "") = false)
                   (text_lines pre ++ post)%list).
  { apply Forall_app. split.
    - unfold text_lines. apply Forall_forall. intros l Hin.
      apply filter_In in Hin as [Hin _].
      rewrite Forall_forall in Hpre. auto.
    - apply Forall_forall. intros l Hin.
      rewrite forallb_forall in Hpost. apply text_line_spec, Hpost, Hin. }
  rewrite (fold_add_line_all _ Hall).
  destruct (text_lines pre ++ post)%list as [|l0 rest] eqn:El; [congruence|].
  inversion Hall; subst. rewrite push_joined by assumption. reflexivity.
Qed.

Lemma parseSrt_block_lines_in_any_order_witness :
  parseSrt_loop parseSrt_init
    [ "1"; "Hello"; "00:00:09,000 --> 00:00:10,000";
      "00:00:01,000 --> 00:00:02,500"; "there"; "" ]
  = Normal (mkParseState
              [mkCaption 1 (joined ["Hello"; "there"]) false
                 (Some 1%float) (Some 2.5%float)]
              None 2).
Proof.
  apply (parseSrt_block_lines_in_any_order parseSrt_init "1"
           [ "Hello"; "00:00:09,000 --> 00:00:10,000" ]
           "00:00:01,000 --> 00:00:02,500" ["there"] 1%float 2.5%float "");
    try reflexivity; try discriminate.
  - repeat constructor.
  - repeat constructor; intros; try reflexivity; discriminate.
Defined.

(** X20.  The duration the component keeps is always a number: a video
    that reports NaN (no metadata yet), 0 or -0 as its duration leaves
    [duration] at +0, and any other duration is taken as it is. *)
Theorem time_update_duration_is_a_number (v : Video) (s : Component) :
  is_nan (duration (handleTimeUpdate (Some v) s)) = false
  /\ (is_nan (video_duration v) = true \/ is_zero (video_duration v) = true ->
      duration (handleTimeUpdate (Some v) s) = 0%float)
  /\ (is_nan (video_duration v) = false -> is_zero (video_duration v) = false ->
      duration (handleTimeUpdate (Some v) s) = video_duration v).
Proof.
  cbn [handleTimeUpdate duration]. unfold truthy.
  destruct (is_nan (video_duration v)) eqn:N;
    destruct (is_zero (video_duration v)) eqn:Z; cbn [orb negb];
    repeat split; try reflexivity; try assumption;
    try (intros [?|?]; discriminate); intros; discriminate.
Qed.

Lemma time_update_duration_is_a_number_witness :
  duration (handleTimeUpdate (Some (mkVideo 0 nan None)) initial) = 0%float.
Proof.
  apply (proj1 (proj2 (time_update_duration_is_a_number
                         (mkVideo 0 nan None) initial))).
  left. reflexivity.
Defined.
